(** * xds_resolver.cc: the weighted-cluster action-name cache, the
      service-config generator and the listener-watcher callbacks.

    Shallow embedding of
    [src/core/ext/filters/client_channel/resolver/xds/xds_resolver.cc].

    - [std::map<std::string, V>] is a [gmap string V]; wherever the source
      relies on the ordering of a [std::map] (iteration, [begin()]) the
      entries are enumerated in ascending key order by [sorted_items].
    - [std::set<std::string>] is a [gset string], joined in ascending order.
    - [uint64_t] / [uint32_t] are [N]; the only arithmetic on them is the
      post-increment of [next_index], written with its wrap-around.
    - [GPR_ASSERT] failures abort the process; functions that contain one
      return [option], [None] being the abort. *)

From Stdlib Require Import Ascii.
From stdpp Require Import gmap strings list fin_maps sorting pretty.

#[local] Set Warnings "-clear-no-such-hyp".

Local Open Scope string_scope.

(** ** Ordered enumeration of [std::map] and [std::set] *)

Definition key_le {V} (p q : string * V) : Prop := String.le p.1 q.1.

#[global] Instance key_le_dec {V} : RelDecision (@key_le V).
Proof. intros p q. unfold key_le. apply _. Defined.

(** Entries of a [std::map<std::string, V>] in iteration order. *)
Definition sorted_items {V} (m : gmap string V) : list (string * V) :=
  merge_sort key_le (map_to_list m).

(** [m.begin()]: the entry with the smallest key, [None] when [m.empty()]. *)
Definition map_begin {V} (m : gmap string V) : option (string * V) :=
  head (sorted_items m).

(** Elements of a [std::set<std::string>] in iteration order. *)
Definition sorted_elements (s : gset string) : list string :=
  merge_sort String.le (elements s).

(** [absl::StrJoin(parts, sep)]. *)
Definition StrJoin (parts : list string) (sep : string) : string :=
  String.concat sep parts.

(** ** Text *)

(** String literals of the source are written through [lit]: ['] stands
    for the escaped double quote of the C++ literal and the two characters
    [\n] for its newline escape. *)
Fixpoint lit (s : string) : string :=
  match s with
  | EmptyString => EmptyString
  | String "\"%char (String "n"%char rest) =>
      String (Ascii.ascii_of_nat 10) (lit rest)
  | String "'"%char rest => String (Ascii.ascii_of_nat 34) (lit rest)
  | String c rest => String c (lit rest)
  end.

(** [absl::StrFormat(fmt, args...)] for the conversions the source uses,
    [%s] and [%d]; the arguments are passed already rendered ([%d] of an
    integer is its decimal [pretty] form). *)
Fixpoint StrFormat (fmt : string) (args : list string) : string :=
  match fmt with
  | EmptyString => EmptyString
  | String "%"%char (String c rest) =>
      if bool_decide (c = "s"%char ∨ c = "d"%char) then
        match args with
        | arg :: args => arg +:+ StrFormat rest args
        | [] => StrFormat rest []
        end
      else String "%"%char (String c (StrFormat rest args))
  | String c rest => String c (StrFormat rest args)
  end.

Arguments lit : simpl never.
Arguments StrFormat : simpl never.

(** ** Route model (the parts of [XdsApi::RdsUpdate] the resolver reads) *)

Module XdsApi.

Record ClusterWeight := {
  name : string;
  weight : N (* uint32_t *)
}.

(** [PathMatcherType] and [HeaderMatcherType] are [enum class]es over
    [int].  [OTHER n] stands for a value of the underlying type that is
    none of the enumerators: the [switch] statements of
    [CreateServiceConfigRoute] are written for that case too (the
    [default:] label, and the fall-through past the last [case]). *)
Module PathMatcherType.
Inductive t := PREFIX | PATH | REGEX | OTHER (tag : Z).
End PathMatcherType.

Module HeaderMatcherType.
Inductive t :=
  | EXACT | REGEX | RANGE | PRESENT | PREFIX | SUFFIX | OTHER (tag : Z).
End HeaderMatcherType.

Record PathMatcher := {
  path_type : PathMatcherType.t;
  path_string_matcher : string;
  path_regex_pattern : string (* regex_matcher->pattern() *)
}.

Record HeaderMatcher := {
  header_name : string;
  header_type : HeaderMatcherType.t;
  range_start : Z (* int64_t *);
  range_end : Z (* int64_t *);
  header_string_matcher : string;
  header_regex_pattern : string (* regex_match->pattern() *);
  present_match : bool;
  invert_match : bool
}.

Record Matchers := {
  path_matcher : PathMatcher;
  header_matchers : list HeaderMatcher;
  fraction_per_million : option N (* absl::optional<uint32_t> *)
}.

Record RdsRoute := {
  matchers : Matchers;
  cluster_name : string;
  weighted_clusters : list ClusterWeight
}.

Record RdsUpdate := { routes : list RdsRoute }.

Record LdsUpdate := { rds_update : option RdsUpdate }.

End XdsApi.

Import XdsApi.

#[global] Instance ClusterWeight_eq_dec : EqDecision ClusterWeight.
Proof. solve_decision. Defined.

(** ** Cache keys *)

Record WeightedClustersKeys := {
  cluster_names_key : string;
  cluster_weights_key : string
}.

(** Returns the cluster names and weights key and the cluster names only
    key. *)
Definition GetWeightedClustersKey (weighted_clusters : list ClusterWeight)
  : WeightedClustersKeys :=
  let cluster_names : gset string :=
    list_to_set ((λ cluster_weight, StrFormat "%s" [name cluster_weight])
                   <$> weighted_clusters) in
  let cluster_weights : gset string :=
    list_to_set ((λ cluster_weight,
                    StrFormat "%s_%d" [name cluster_weight;
                                       pretty (weight cluster_weight)])
                   <$> weighted_clusters) in
  {| cluster_names_key := StrJoin (sorted_elements cluster_names) "_";
     cluster_weights_key := StrJoin (sorted_elements cluster_weights) "_" |}.

(** ** The two-level index map *)

Record ClusterNamesInfo := {
  next_index : N (* uint64_t *);
  cluster_weights_map : gmap string N
}.

Abbreviation WeightedClusterIndexMap := (gmap string ClusterNamesInfo).

(** A value-initialised [ClusterNamesInfo], as [operator[]] inserts it. *)
Definition fresh_info : ClusterNamesInfo :=
  {| next_index := 0; cluster_weights_map := ∅ |}.

(** [x++] on a [uint64_t]. *)
Definition uint64_succ (x : N) : N := ((x + 1) mod 2 ^ 64)%N.

Definition WeightedClustersActionName
    (weighted_cluster_index_map_ : WeightedClusterIndexMap)
    (weighted_clusters : list ClusterWeight) : option string :=
  let keys := GetWeightedClustersKey weighted_clusters in
  match weighted_cluster_index_map_ !! cluster_names_key keys with
  | None => None (* GPR_ASSERT *)
  | Some info =>
      match cluster_weights_map info !! cluster_weights_key keys with
      | None => None (* GPR_ASSERT *)
      | Some index =>
          Some (StrFormat "%s_%d" [cluster_names_key keys; pretty index])
      end
  end.

(** The list of unique WeightedCluster actions of an update:
    [cluster_weights_key ↦ cluster_names_key], first occurrence wins. *)
Definition add_action (acts : gmap string string) (route : RdsRoute)
  : gmap string string :=
  if decide (weighted_clusters route = []) then acts
  else
    let keys := GetWeightedClustersKey (weighted_clusters route) in
    match acts !! cluster_weights_key keys with
    | None => <[cluster_weights_key keys := cluster_names_key keys]> acts
    | Some _ => acts
    end.

Definition actions_to_process (rds_update : RdsUpdate) : gmap string string :=
  foldl add_action ∅ (routes rds_update).

(** State threaded through the two passes: the member map (from which
    entries are erased), the map under construction, and the actions that
    still need a name. *)
Record PassState := {
  old_map : WeightedClusterIndexMap;
  new_map : WeightedClusterIndexMap;
  pending : gmap string string
}.

Definition set_weights (info : ClusterNamesInfo) (m : gmap string N)
  : ClusterNamesInfo :=
  {| next_index := next_index info; cluster_weights_map := m |}.

(** Body of the first loop, for the action
    [(cluster_weights_key, cluster_names_key)]. *)
Definition first_pass_step (st : PassState) (action : string * string)
  : PassState :=
  let '(weights_key, names_key) := action in
  match old_map st !! names_key with
  | Some old_info =>
      (* Add cluster_names_key to the new map and copy next_index. *)
      let new_info :=
        {| next_index := next_index old_info;
           cluster_weights_map :=
             cluster_weights_map
               (default fresh_info (new_map st !! names_key)) |} in
      match cluster_weights_map old_info !! weights_key with
      | Some index =>
          (* same policy found, move from old map to new map. *)
          {| old_map :=
               <[names_key :=
                   set_weights old_info
                     (delete weights_key (cluster_weights_map old_info))]>
                 (old_map st);
             new_map :=
               <[names_key :=
                   set_weights new_info
                     (<[weights_key := index]> (cluster_weights_map new_info))]>
                 (new_map st);
             pending := delete weights_key (pending st) |}
      | None =>
          {| old_map := old_map st;
             new_map := <[names_key := new_info]> (new_map st);
             pending := pending st |}
      end
  | None => st
  end.

Definition first_pass (st : PassState) : PassState :=
  foldl first_pass_step st (sorted_items (pending st)).

(** Body of the second loop. Both [operator[]] calls insert a
    value-initialised bucket when the key is absent. *)
Definition second_pass_step (st : PassState) (action : string * string)
  : PassState :=
  let '(weights_key, names_key) := action in
  let new_info := default fresh_info (new_map st !! names_key) in
  let old_info := default fresh_info (old_map st !! names_key) in
  match map_begin (cluster_weights_map old_info) with
  | Some (reused_key, index) =>
      (* There is something to reuse. *)
      {| old_map :=
           <[names_key :=
               set_weights old_info
                 (delete reused_key (cluster_weights_map old_info))]>
             (old_map st);
         new_map :=
           <[names_key :=
               set_weights new_info
                 (<[weights_key := index]> (cluster_weights_map new_info))]>
             (new_map st);
         pending := pending st |}
  | None =>
      (* There is nothing to reuse, take the next index and increment. *)
      {| old_map := <[names_key := old_info]> (old_map st);
         new_map :=
           <[names_key :=
               {| next_index := uint64_succ (next_index new_info);
                  cluster_weights_map :=
                    <[weights_key := next_index new_info]>
                      (cluster_weights_map new_info) |}]>
             (new_map st);
         pending := pending st |}
  end.

Definition second_pass (st : PassState) : PassState :=
  foldl second_pass_step st (sorted_items (pending st)).

Definition allocate (table : WeightedClusterIndexMap)
    (acts : gmap string string) : WeightedClusterIndexMap :=
  new_map (second_pass (first_pass
    {| old_map := table; new_map := ∅; pending := acts |})).

Definition UpdateWeightedClusterIndexMap
    (weighted_cluster_index_map_ : WeightedClusterIndexMap)
    (rds_update : RdsUpdate) : WeightedClusterIndexMap :=
  allocate weighted_cluster_index_map_ (actions_to_process rds_update).

(** * The service-config generator *)

Definition CreateServiceConfigActionCluster (cluster_name : string) : string :=
  StrFormat
    (lit ("      'cds:%s':{\n" +:+
          "        'childPolicy':[ {\n" +:+
          "          'cds_experimental':{\n" +:+
          "            'cluster': '%s'\n" +:+
          "          }\n" +:+
          "        } ]\n" +:+
          "       }"))
    [cluster_name; cluster_name].

(** The text of one header matcher: the [switch] over [header.type]. *)
Definition header_matcher_text (header : HeaderMatcher) : string :=
  match header_type header with
  | HeaderMatcherType.EXACT =>
      StrFormat (lit "             'exact_match': '%s'")
        [header_string_matcher header]
  | HeaderMatcherType.REGEX =>
      StrFormat (lit "             'regex_match': '%s'")
        [header_regex_pattern header]
  | HeaderMatcherType.RANGE =>
      StrFormat
        (lit ("             'range_match':{\n" +:+
              "              'start':%d,\n" +:+
              "              'end':%d\n" +:+
              "             }"))
        [pretty (range_start header); pretty (range_end header)]
  | HeaderMatcherType.PRESENT =>
      StrFormat (lit "             'present_match': %s")
        [if present_match header then "true" else "false"]
  | HeaderMatcherType.PREFIX =>
      StrFormat (lit "             'prefix_match': '%s'")
        [header_string_matcher header]
  | HeaderMatcherType.SUFFIX =>
      StrFormat (lit "             'suffix_match': '%s'")
        [header_string_matcher header]
  | HeaderMatcherType.OTHER _ => "" (* default: break; *)
  end.

(** One iteration of the loop over [route.matchers.header_matchers]. *)
Definition header_text (header : HeaderMatcher) : string :=
  let header_parts :=
    ([StrFormat (lit ("           { \n" +:+
                      "             'name': '%s',\n"))
        [header_name header];
      header_matcher_text header] ++
     (if invert_match header
      then [StrFormat (lit (",\n" +:+
                            "             'invert_match': true")) []]
      else []) ++
     [StrFormat (lit ("\n" +:+
                      "           }")) []])%list in
  StrJoin header_parts "".

(** The [switch] over [route.matchers.path_matcher.type]; it has no
    [default:] label, [path_match_str] stays empty past the last [case]. *)
Definition path_match_str (path : PathMatcher) : string :=
  match path_type path with
  | PathMatcherType.PREFIX =>
      StrFormat (lit "'prefix': '%s',\n") [path_string_matcher path]
  | PathMatcherType.PATH =>
      StrFormat (lit "'path': '%s',\n") [path_string_matcher path]
  | PathMatcherType.REGEX =>
      StrFormat (lit "'regex': '%s',\n") [path_regex_pattern path]
  | PathMatcherType.OTHER _ => ""
  end.

(** The text of a route entry, given its three matcher texts. *)
Definition route_entry (path_match headers_match fraction_match
    action_name : string) : string :=
  StrFormat
    (lit ("      { \n" +:+
          "           %s" +:+
          "           %s" +:+
          "           %s" +:+
          "           'action': '%s'\n" +:+
          "      }"))
    [path_match; headers_match; fraction_match; action_name].

(** [absl::StrJoin(headers_service_config, "")]: empty when the route has
    no header matcher. *)
Definition headers_match_str (route : RdsRoute) : string :=
  let headers := header_text <$> header_matchers (matchers route) in
  let headers_service_config :=
    if decide (headers = []) then []
    else [lit "'headers':[\n"; StrJoin headers ","; lit "           ],\n"] in
  StrJoin headers_service_config "".

Definition fraction_match_str (route : RdsRoute) : string :=
  match fraction_per_million (matchers route) with
  | Some fraction => StrFormat (lit "'match_fraction':%d,\n") [pretty fraction]
  | None => ""
  end.

Definition CreateServiceConfigRoute (action_name : string) (route : RdsRoute)
  : string :=
  route_entry
    (path_match_str (path_matcher (matchers route)))
    (headers_match_str route)
    (fraction_match_str route)
    action_name.

(** Create the service config for one weighted cluster. *)
Definition CreateServiceConfigActionWeightedCluster (name : string)
    (clusters : list ClusterWeight) : string :=
  let weighted_targets :=
    (λ cluster_weight,
       StrFormat
         (lit ("              '%s':{\n" +:+
               "                'weight':%d,\n" +:+
               "                'childPolicy':[ {\n" +:+
               "                  'cds_experimental':{\n" +:+
               "                    'cluster': '%s'\n" +:+
               "                  }\n" +:+
               "                } ]\n" +:+
               "               }"))
         [XdsApi.name cluster_weight; pretty (weight cluster_weight);
          XdsApi.name cluster_weight]) <$> clusters in
  StrJoin
    [StrFormat
       (lit ("      'weighted:%s':{\n" +:+
             "        'childPolicy':[ {\n" +:+
             "          'weighted_target_experimental':{\n" +:+
             "            'targets':{\n"))
       [name];
     StrJoin weighted_targets (lit ",\n");
     lit ("            }\n" +:+
          "          }\n" +:+
          "        } ]\n" +:+
          "       }")]
    "".

(** ** The loop over the routes *)

Record ConfigLoop := {
  actions_vector : list string;
  route_table : list string;
  actions_set : gset string
}.

(** The action name of a route; [None] is a failed [GPR_ASSERT] of
    [WeightedClustersActionName]. *)
Definition route_action_name (index_map : WeightedClusterIndexMap)
    (route : RdsRoute) : option string :=
  if decide (weighted_clusters route = []) then Some (cluster_name route)
  else WeightedClustersActionName index_map (weighted_clusters route).

Definition route_action_kind (route : RdsRoute) : string :=
  if decide (weighted_clusters route = []) then "cds" else "weighted".

Definition config_loop_step (index_map : WeightedClusterIndexMap)
    (acc : option ConfigLoop) (route : RdsRoute) : option ConfigLoop :=
  acc ← acc;
  action_name ← route_action_name index_map route;
  let fresh := bool_decide (action_name ∉ actions_set acc) in
  Some
    {| actions_set :=
         if fresh then {[action_name]} ∪ actions_set acc else actions_set acc;
       actions_vector :=
         if fresh then
           (actions_vector acc ++
            [if decide (weighted_clusters route = [])
             then CreateServiceConfigActionCluster action_name
             else CreateServiceConfigActionWeightedCluster action_name
                    (weighted_clusters route)])%list
         else actions_vector acc;
       route_table :=
         (route_table acc ++
          [CreateServiceConfigRoute
             (StrFormat "%s:%s" [route_action_kind route; action_name])
             route])%list |}.

Definition config_loop (index_map : WeightedClusterIndexMap)
    (rds_update : RdsUpdate) : option ConfigLoop :=
  foldl (config_loop_step index_map)
    (Some {| actions_vector := []; route_table := []; actions_set := ∅ |})
    (routes rds_update).

(** The text handed to [ServiceConfig::Create]. *)
Definition config_json (loop : ConfigLoop) : string :=
  StrJoin
    [lit ("{\n" +:+
          "  'loadBalancingConfig':[\n" +:+
          "    { 'xds_routing_experimental':{\n" +:+
          "      'actions':{\n");
     StrJoin (actions_vector loop) (lit ",\n");
     lit ("    },\n" +:+
          "      'routes':[\n");
     StrJoin (route_table loop) (lit ",\n");
     lit ("    ]\n" +:+
          "    } }\n" +:+
          "  ]\n" +:+
          "}")]
    "".

(** ** The resolver and its watcher *)

Section Resolver.

(** [ServiceConfig], [grpc_error] and [grpc_arg] are declared outside this
    file, and so is [ServiceConfig::Create], the parser that builds a
    service config from its JSON text; they are parameters here.
    [ServiceConfig_Create json] is the returned pointer ([None] for
    [nullptr]) with the error it stores ([None] for [GRPC_ERROR_NONE]). *)
Context {ServiceConfig grpc_error grpc_arg : Type}.
Variable ServiceConfig_Create :
  string → option ServiceConfig * option grpc_error.

(** Create the service config generated by the RdsUpdate.  Returns the
    updated index map, [*service_config] and the error; [None] when a
    [GPR_ASSERT] fails on the way. *)
Definition CreateServiceConfig
    (weighted_cluster_index_map_ : WeightedClusterIndexMap)
    (rds_update : RdsUpdate)
  : option (WeightedClusterIndexMap *
            (option ServiceConfig * option grpc_error)) :=
  let index_map :=
    UpdateWeightedClusterIndexMap weighted_cluster_index_map_ rds_update in
  loop ← config_loop index_map rds_update;
  Some (index_map, ServiceConfig_Create (config_json loop)).

(** [XdsClient] and [ConfigSelector] are seen through [MakeChannelArg()]
    only. *)
Record XdsClient := { client_channel_arg : grpc_arg }.
Record XdsConfigSelector := { selector_channel_arg : grpc_arg }.

(** [grpc_channel_args]: the list of its [grpc_arg]s. *)
Definition grpc_channel_args_copy (src : list grpc_arg) : list grpc_arg := src.

(** Modelled from the spec: [grpc_channel_args_copy_and_add] is declared in
    [channel_args.h]; the spec describes its use as merging a contribution
    into the base passthrough args.  The added args follow the copied
    ones. *)
Definition grpc_channel_args_copy_and_add (src to_add : list grpc_arg)
  : list grpc_arg :=
  (src ++ to_add)%list.

(** [Resolver::Result], without the addresses this resolver never sets. *)
Record Result := {
  service_config : option ServiceConfig;
  service_config_error : option grpc_error;
  args : list grpc_arg
}.

Record XdsResolver := {
  server_name_ : string;
  args_ : list grpc_arg;
  xds_client_ : option XdsClient (* OrphanablePtr, [None] for nullptr *);
  config_selector_ : XdsConfigSelector;
  weighted_cluster_index_map_ : WeightedClusterIndexMap
}.

(** The resolver together with what [result_handler()] has received so
    far, oldest first. *)
Record Resolving := {
  resolver : XdsResolver;
  delivered : list Result
}.

Definition ReturnResult (result : Result) (w : Resolving) : Resolving :=
  {| resolver := resolver w; delivered := (delivered w ++ [result])%list |}.

Definition ShutdownLocked (r : XdsResolver) : XdsResolver :=
  {| server_name_ := server_name_ r;
     args_ := args_ r;
     xds_client_ := None (* xds_client_.reset() *);
     config_selector_ := config_selector_ r;
     weighted_cluster_index_map_ := weighted_cluster_index_map_ r |}.

Definition set_index_map (r : XdsResolver) (m : WeightedClusterIndexMap)
  : XdsResolver :=
  {| server_name_ := server_name_ r;
     args_ := args_ r;
     xds_client_ := xds_client_ r;
     config_selector_ := config_selector_ r;
     weighted_cluster_index_map_ := m |}.

(** The watcher callbacks.  They run inside the resolver's work
    serializer, one at a time; [None] is a failed [GPR_ASSERT] (or the
    dereference of an empty [rds_update]). *)
Definition OnError (error : option grpc_error) (w : Resolving)
  : option Resolving :=
  match xds_client_ (resolver w) with
  | None => Some w
  | Some xds_client =>
      let xds_client_arg := client_channel_arg xds_client in
      Some (ReturnResult
              {| service_config := None;
                 service_config_error := error;
                 args := grpc_channel_args_copy_and_add
                           (args_ (resolver w)) [xds_client_arg] |} w)
  end.

Definition OnListenerChanged (listener_data : LdsUpdate) (w : Resolving)
  : option Resolving :=
  match xds_client_ (resolver w) with
  | None => Some w
  | Some xds_client =>
      rds ← rds_update listener_data;
      '(index_map, (config, error)) ←
        CreateServiceConfig (weighted_cluster_index_map_ (resolver w)) rds;
      let w := {| resolver := set_index_map (resolver w) index_map;
                  delivered := delivered w |} in
      match error with
      | Some _ => OnError error w
      | None =>
          let new_args :=
            [client_channel_arg xds_client;
             selector_channel_arg (config_selector_ (resolver w))] in
          Some (ReturnResult
                  {| service_config := config;
                     service_config_error := None;
                     args := grpc_channel_args_copy_and_add
                               (args_ (resolver w)) new_args |} w)
      end
  end.

Definition OnResourceDoesNotExist (w : Resolving) : option Resolving :=
  match xds_client_ (resolver w) with
  | None => Some w
  | Some _ =>
      let '(config, error) := ServiceConfig_Create "{}" in
      match config with
      | None => None (* GPR_ASSERT(result.service_config != nullptr) *)
      | Some _ =>
          Some (ReturnResult
                  {| service_config := config;
                     service_config_error := error;
                     args := grpc_channel_args_copy (args_ (resolver w)) |} w)
      end
  end.

(** What the discovery client can invoke on the watcher. *)
Inductive WatcherCallback :=
  | ListenerChanged (listener_data : LdsUpdate)
  | Error (error : option grpc_error)
  | ResourceDoesNotExist.

Definition run_callback (w : Resolving) (cb : WatcherCallback)
  : option Resolving :=
  match cb with
  | ListenerChanged listener_data => OnListenerChanged listener_data w
  | Error error => OnError error w
  | ResourceDoesNotExist => OnResourceDoesNotExist w
  end.

(** The callbacks queued in the work serializer, run in order. *)
Definition run_callbacks (w : Resolving) (cbs : list WatcherCallback)
  : option Resolving :=
  foldl (λ w cb, w ← w; run_callback w cb) (Some w) cbs.

End Resolver.

(** * Ordered enumeration: basic facts *)

Section sorted_items.
Context {V : Type}.
Implicit Types (m : gmap string V) (k : string) (v : V).

#[local] Instance key_le_trans : Transitive (@key_le V).
Proof. intros p q r. unfold key_le. apply transitivity. Qed.

#[local] Instance key_le_total : Total (@key_le V).
Proof. intros p q. unfold key_le. apply total, _. Qed.

Lemma sorted_items_perm m : sorted_items m ≡ₚ map_to_list m.
Proof. apply merge_sort_Permutation. Qed.

Lemma elem_of_sorted_items m k v :
  (k, v) ∈ sorted_items m ↔ m !! k = Some v.
Proof. by rewrite sorted_items_perm, elem_of_map_to_list. Qed.

Lemma NoDup_fst_sorted_items m : NoDup (sorted_items m).*1.
Proof.
  rewrite (fmap_Permutation fst _ _ (sorted_items_perm m)).
  apply NoDup_fst_map_to_list.
Qed.

Lemma sorted_items_sorted m : StronglySorted key_le (sorted_items m).
Proof. apply StronglySorted_merge_sort; apply _. Qed.

Lemma sorted_items_empty : sorted_items (∅ : gmap string V) = [].
Proof.
  apply Permutation_nil_r. by rewrite sorted_items_perm, map_to_list_empty.
Qed.

Lemma sorted_items_nil m : sorted_items m = [] ↔ m = ∅.
Proof.
  rewrite <-map_to_list_empty_iff. split; intros H.
  - apply Permutation_nil_r. by rewrite <-sorted_items_perm, H.
  - apply Permutation_nil_r. by rewrite sorted_items_perm, H.
Qed.

Lemma map_begin_None m : map_begin m = None ↔ m = ∅.
Proof. unfold map_begin. by rewrite head_None, sorted_items_nil. Qed.

(** [begin()] is an entry of the map, and no key of the map is smaller. *)
Lemma map_begin_Some m k v :
  map_begin m = Some (k, v) →
  m !! k = Some v ∧ ∀ k', is_Some (m !! k') → String.le k k'.
Proof.
  unfold map_begin. intros [l Hl]%head_Some.
  pose proof (sorted_items_sorted m) as Hs. rewrite Hl in Hs.
  apply StronglySorted_cons in Hs as [Hmin _].
  split.
  - apply elem_of_sorted_items. rewrite Hl. left.
  - intros k' [v' Hv'%elem_of_sorted_items]. rewrite Hl in Hv'.
    apply elem_of_cons in Hv' as [Heq|Hin].
    + injection Heq as -> ->. reflexivity.
    + rewrite Forall_forall in Hmin. apply (Hmin _ Hin).
Qed.

Lemma map_begin_is_Some m k v : m !! k = Some v → is_Some (map_begin m).
Proof.
  intros Hk. destruct (map_begin m) eqn:Hb; [by eexists|].
  apply map_begin_None in Hb. subst. by rewrite lookup_empty in Hk.
Qed.
End sorted_items.

(** * Buckets are independent

    Every loop iteration reads and writes the two maps at one
    [cluster_names_key] only.  [bucket_of] is the view of the state at a
    key; the loop bodies act on it as [first_pass_bucket] and
    [second_pass_bucket], and leave every other view alone. *)

Abbreviation Bucket := (option ClusterNamesInfo * option ClusterNamesInfo)%type.

Definition bucket_of (names_key : string) (st : PassState) : Bucket :=
  (old_map st !! names_key, new_map st !! names_key).

Definition first_pass_bucket (b : Bucket) (weights_key : string) : Bucket :=
  match b.1 with
  | Some old_info =>
      let new_info :=
        {| next_index := next_index old_info;
           cluster_weights_map :=
             cluster_weights_map (default fresh_info b.2) |} in
      match cluster_weights_map old_info !! weights_key with
      | Some index =>
          (Some (set_weights old_info
                   (delete weights_key (cluster_weights_map old_info))),
           Some (set_weights new_info
                   (<[weights_key := index]> (cluster_weights_map new_info))))
      | None => (Some old_info, Some new_info)
      end
  | None => b
  end.

Definition second_pass_bucket (b : Bucket) (weights_key : string) : Bucket :=
  let new_info := default fresh_info b.2 in
  let old_info := default fresh_info b.1 in
  match map_begin (cluster_weights_map old_info) with
  | Some (reused_key, index) =>
      (Some (set_weights old_info
               (delete reused_key (cluster_weights_map old_info))),
       Some (set_weights new_info
               (<[weights_key := index]> (cluster_weights_map new_info))))
  | None =>
      (Some old_info,
       Some {| next_index := uint64_succ (next_index new_info);
               cluster_weights_map :=
                 <[weights_key := next_index new_info]>
                   (cluster_weights_map new_info) |})
  end.

(** The [cluster_weights_key]s of the actions of one bucket, in the order
    in which a loop over [l] meets them. *)
Definition bucket_keys (names_key : string) (l : list (string * string))
  : list string :=
  (filter (λ a, a.2 = names_key) l).*1.

Lemma first_pass_step_bucket st wk nk nk' :
  bucket_of nk' (first_pass_step st (wk, nk)) =
  if decide (nk = nk') then first_pass_bucket (bucket_of nk' st) wk
  else bucket_of nk' st.
Proof.
  unfold bucket_of, first_pass_step, first_pass_bucket.
  destruct (decide (nk = nk')) as [->|Hne]; simpl.
  - destruct (old_map st !! nk') as [oi|] eqn:Ho; simpl; [|by rewrite Ho].
    destruct (cluster_weights_map oi !! wk); simpl;
      by rewrite ?lookup_insert_eq, ?Ho.
  - destruct (old_map st !! nk) as [oi|]; [|done].
    destruct (cluster_weights_map oi !! wk); simpl;
      by rewrite ?lookup_insert_ne.
Qed.

Lemma second_pass_step_bucket st wk nk nk' :
  bucket_of nk' (second_pass_step st (wk, nk)) =
  if decide (nk = nk') then second_pass_bucket (bucket_of nk' st) wk
  else bucket_of nk' st.
Proof.
  unfold bucket_of, second_pass_step, second_pass_bucket.
  destruct (decide (nk = nk')) as [->|Hne]; simpl.
  - destruct (map_begin _) as [[??]|]; simpl; by rewrite ?lookup_insert_eq.
  - destruct (map_begin _) as [[??]|]; simpl; by rewrite ?lookup_insert_ne.
Qed.

Lemma bucket_keys_cons_eq nk wk l :
  bucket_keys nk ((wk, nk) :: l) = wk :: bucket_keys nk l.
Proof. unfold bucket_keys. by rewrite filter_cons_True. Qed.

Lemma bucket_keys_cons_ne nk nk' wk l :
  nk' ≠ nk → bucket_keys nk ((wk, nk') :: l) = bucket_keys nk l.
Proof. intros. unfold bucket_keys. by rewrite filter_cons_False. Qed.

Lemma foldl_first_pass_bucket nk l st :
  bucket_of nk (foldl first_pass_step st l) =
  foldl first_pass_bucket (bucket_of nk st) (bucket_keys nk l).
Proof.
  revert st. induction l as [|[wk nk'] l IH]; intros st; [done|].
  cbn [foldl]. rewrite IH, first_pass_step_bucket.
  destruct (decide (nk' = nk)) as [->|Hne].
  - by rewrite bucket_keys_cons_eq.
  - by rewrite bucket_keys_cons_ne.
Qed.

Lemma foldl_second_pass_bucket nk l st :
  bucket_of nk (foldl second_pass_step st l) =
  foldl second_pass_bucket (bucket_of nk st) (bucket_keys nk l).
Proof.
  revert st. induction l as [|[wk nk'] l IH]; intros st; [done|].
  cbn [foldl]. rewrite IH, second_pass_step_bucket.
  destruct (decide (nk' = nk)) as [->|Hne].
  - by rewrite bucket_keys_cons_eq.
  - by rewrite bucket_keys_cons_ne.
Qed.

(** The keys of one bucket, for the actions of a map. *)
Section bucket_keys.
Implicit Types (acts : gmap string string).

Lemma elem_of_bucket_keys nk acts wk :
  wk ∈ bucket_keys nk (sorted_items acts) ↔ acts !! wk = Some nk.
Proof.
  unfold bucket_keys. rewrite list_elem_of_fmap. split.
  - intros ([wk' nk'] & -> & [Hnk Hin]%list_elem_of_filter).
    simpl in *. subst. by apply elem_of_sorted_items.
  - intros H. exists (wk, nk). split; [done|].
    apply list_elem_of_filter. split; [done|].
    by apply elem_of_sorted_items.
Qed.

Lemma bucket_keys_sublist nk (l : list (string * string)) :
  bucket_keys nk l `sublist_of` l.*1.
Proof. unfold bucket_keys. apply fmap_sublist, sublist_filter. Qed.

Lemma NoDup_bucket_keys nk acts : NoDup (bucket_keys nk (sorted_items acts)).
Proof.
  eapply sublist_NoDup; [|apply bucket_keys_sublist].
  apply NoDup_fst_sorted_items.
Qed.

Lemma bucket_keys_sorted nk acts :
  StronglySorted String.le (bucket_keys nk (sorted_items acts)).
Proof.
  unfold bucket_keys.
  apply (StronglySorted_fmap fst key_le); [by intros ??|].
  pose proof (sorted_items_sorted acts) as Hs.
  induction Hs as [|a l Hs IH Hall]; [constructor|].
  rewrite filter_cons. case_decide; [|done].
  constructor; [done|].
  rewrite Forall_forall in Hall. apply Forall_forall.
  intros x [_ Hx]%list_elem_of_filter. by apply Hall.
Qed.
End bucket_keys.

(** * The first pass *)

(** The old map holds [weights_key] under [names_key]: "the exact same
    weighted target policy appears in the old map". *)
Definition exact_match (table : WeightedClusterIndexMap)
    (weights_key names_key : string) : Prop :=
  is_Some (table !! names_key ≫= λ info, cluster_weights_map info !! weights_key).

(** The actions the first pass leaves for the second one. *)
Definition unsettled (table : WeightedClusterIndexMap)
    (acts : gmap string string) : gmap string string :=
  filter (λ a, ¬ exact_match table a.1 a.2) acts.

Lemma exact_match_alt table wk nk :
  exact_match table wk nk ↔
  ∃ info index, table !! nk = Some info ∧
                cluster_weights_map info !! wk = Some index.
Proof.
  unfold exact_match. split.
  - intros [index H]. destruct (table !! nk) as [info|]; [|done].
    by exists info, index.
  - intros (info & index & -> & H). by exists index.
Qed.

Lemma first_pass_step_pending st wk nk :
  pending (first_pass_step st (wk, nk)) =
  if decide (exact_match (old_map st) wk nk) then delete wk (pending st)
  else pending st.
Proof.
  unfold first_pass_step. case_decide as Hd.
  - apply exact_match_alt in Hd as (info & index & Ho & Hw).
    by rewrite Ho, Hw.
  - destruct (old_map st !! nk) as [oi|] eqn:Ho; [|done].
    destruct (cluster_weights_map oi !! wk) eqn:Hw; [|done].
    exfalso. apply Hd, exact_match_alt. eauto.
Qed.

Lemma first_pass_step_exact_match st wk nk wk' nk' :
  wk' ≠ wk →
  exact_match (old_map (first_pass_step st (wk, nk))) wk' nk' ↔
  exact_match (old_map st) wk' nk'.
Proof.
  intros Hne. unfold exact_match.
  pose proof (first_pass_step_bucket st wk nk nk') as Hb.
  unfold bucket_of in Hb. apply (f_equal fst) in Hb. cbn [fst] in Hb.
  rewrite Hb. clear Hb.
  destruct (decide (nk = nk')) as [->|]; [|done].
  unfold first_pass_bucket. cbn [fst snd].
  destruct (old_map st !! nk') as [oi|]; simpl; [|done].
  destruct (cluster_weights_map oi !! wk); simpl; [|done].
  by rewrite lookup_delete_ne.
Qed.

Lemma foldl_first_pass_pending table l : ∀ st,
  NoDup l.*1 →
  (∀ wk nk, (wk, nk) ∈ l →
     exact_match (old_map st) wk nk ↔ exact_match table wk nk) →
  ∀ wk nk,
    pending (foldl first_pass_step st l) !! wk = Some nk ↔
    pending st !! wk = Some nk ∧
    ∀ nk', (wk, nk') ∈ l → ¬ exact_match table wk nk'.
Proof.
  induction l as [|[wk0 nk0] l IH]; intros st Hnd Hagree wk nk.
  { simpl. split; [|by intros [??]]. intros Hp. split; [done|].
    by intros ? ?%elem_of_nil. }
  cbn [foldl]. rewrite fmap_cons in Hnd. apply NoDup_cons in Hnd as [Hnin Hnd].
  rewrite IH; [|done|].
  - rewrite first_pass_step_pending.
    pose proof (Hagree wk0 nk0 ltac:(left)) as H0.
    split.
    + intros [Hp Hall]. destruct (decide (wk = wk0)) as [->|Hne].
      * case_decide as Hd.
        { by rewrite lookup_delete_eq in Hp. }
        split; [done|]. intros nk' [Heq|Hin]%elem_of_cons.
        -- injection Heq as ->. by rewrite <-H0.
        -- by apply Hall.
      * assert (pending st !! wk = Some nk) as Hp'.
        { case_decide; [by rewrite lookup_delete_ne in Hp|done]. }
        split; [done|]. intros nk' [Heq|Hin]%elem_of_cons.
        -- by injection Heq as -> ->.
        -- by apply Hall.
    + intros [Hp Hall]. split.
      * case_decide as Hd; [|done].
        destruct (decide (wk = wk0)) as [->|Hne].
        -- exfalso. apply (Hall nk0); [left|]. by apply H0.
        -- by rewrite lookup_delete_ne.
      * intros nk' Hin. apply Hall. by right.
  - intros wk' nk' Hin. rewrite first_pass_step_exact_match.
    + apply Hagree. by right.
    + intros ->. apply Hnin. apply list_elem_of_fmap. by exists (wk0, nk').
Qed.

Lemma first_pass_pending table acts :
  pending (first_pass {| old_map := table; new_map := ∅; pending := acts |}) =
  unsettled table acts.
Proof.
  unfold first_pass, unsettled. simpl.
  apply map_eq. intros wk. apply option_eq. intros nk.
  rewrite (foldl_first_pass_pending table);
    [|apply NoDup_fst_sorted_items|done].
  rewrite map_lookup_filter_Some. simpl. split.
  - intros [Hwk Hall]. split; [done|].
    apply Hall. by apply elem_of_sorted_items.
  - intros [Hwk Hn]. split; [done|].
    intros nk' Hin%elem_of_sorted_items. congruence.
Qed.

(** The first pass on one bucket, in closed form: the entries of the old
    bucket that the update requests again move to the new bucket, the
    others stay behind; [next_index] is copied. *)
Definition carried_over (info : ClusterNamesInfo) (ws : list string)
  : ClusterNamesInfo :=
  set_weights info (filter (λ p, p.1 ∈ ws) (cluster_weights_map info)).

Definition left_over (info : ClusterNamesInfo) (ws : list string)
  : ClusterNamesInfo :=
  set_weights info (filter (λ p, p.1 ∉ ws) (cluster_weights_map info)).

Lemma foldl_first_pass_bucket_None n ws :
  foldl first_pass_bucket (None, n) ws = (None, n).
Proof. induction ws as [|w ws IH]; [done|]. cbn [foldl]. apply IH. Qed.

Lemma filter_elem_of_nil (m : gmap string N) :
  filter (λ p, p.1 ∈ @nil string) m = ∅.
Proof. apply map_empty_filter. intros ?? _. simpl. apply not_elem_of_nil. Qed.

Lemma filter_not_elem_of_nil (m : gmap string N) :
  filter (λ p, p.1 ∉ @nil string) m = m.
Proof. apply map_filter_id. intros ?? _. simpl. apply not_elem_of_nil. Qed.

Lemma lookup_filter_elem_of (m : gmap string N) (ws : list string) k :
  filter (λ p, p.1 ∈ ws) m !! k = if decide (k ∈ ws) then m !! k else None.
Proof.
  apply option_eq. intros v. rewrite map_lookup_filter_Some. simpl.
  case_decide; naive_solver.
Qed.

Lemma lookup_filter_not_elem_of (m : gmap string N) (ws : list string) k :
  filter (λ p, p.1 ∉ ws) m !! k = if decide (k ∈ ws) then None else m !! k.
Proof.
  apply option_eq. intros v. rewrite map_lookup_filter_Some. simpl.
  case_decide; naive_solver.
Qed.

Lemma foldl_first_pass_bucket_Some info ws :
  foldl first_pass_bucket (Some info, None) ws =
  (Some (left_over info ws),
   if decide (ws = []) then None else Some (carried_over info ws)).
Proof.
  induction ws as [|w ws IH] using rev_ind.
  { simpl. f_equal. f_equal. destruct info as [n m].
    unfold left_over, set_weights. simpl. by rewrite filter_not_elem_of_nil. }
  rewrite foldl_snoc, IH. clear IH.
  rewrite (decide_False (P := (ws ++ [w])%list = [])); [|by destruct ws].
  assert (cluster_weights_map
            (default fresh_info
               (if decide (ws = []) then None else Some (carried_over info ws)))
          = filter (λ p, p.1 ∈ ws) (cluster_weights_map info)) as Hnew.
  { case_decide as Hws; [|done]. subst ws. simpl.
    by rewrite filter_elem_of_nil. }
  unfold first_pass_bucket. cbn [fst snd]. rewrite Hnew. clear Hnew.
  unfold left_over, carried_over, set_weights.
  cbn [next_index cluster_weights_map].
  rewrite lookup_filter_not_elem_of.
  assert (∀ k, k ∈ (ws ++ [w])%list ↔ k ∈ ws ∨ k = w) as Hsnoc.
  { intros k. by rewrite elem_of_app, list_elem_of_singleton. }
  destruct (decide (w ∈ ws)) as [Hin|Hnin];
    [|destruct (cluster_weights_map info !! w) as [index|] eqn:Hw].
  - f_equal; f_equal; f_equal; apply map_eq; intros k;
      rewrite ?lookup_filter_not_elem_of, ?lookup_filter_elem_of;
      repeat case_decide; try done; rewrite Hsnoc in *; naive_solver.
  - f_equal; f_equal; f_equal; apply map_eq; intros k.
    + rewrite lookup_delete, !lookup_filter_not_elem_of.
      repeat case_decide; try done; rewrite Hsnoc in *; naive_solver.
    + rewrite lookup_insert, !lookup_filter_elem_of.
      repeat case_decide; try done; rewrite Hsnoc in *; naive_solver.
  - f_equal; f_equal; f_equal; apply map_eq; intros k;
      rewrite ?lookup_filter_not_elem_of, ?lookup_filter_elem_of;
      repeat case_decide; try done; rewrite Hsnoc in *; naive_solver.
Qed.

(** * The second pass *)

Lemma foldl_second_pass_pending l st :
  pending (foldl second_pass_step st l) = pending st.
Proof.
  revert st. induction l as [|[wk nk] l IH]; intros st; [done|].
  cbn [foldl]. rewrite IH. unfold second_pass_step.
  by destruct (map_begin _) as [[??]|].
Qed.

(** The weights maps of a bucket view, reading an absent bucket as the
    value-initialised one that [operator[]] would insert. *)
Definition old_weights (b : Bucket) : gmap string N :=
  cluster_weights_map (default fresh_info b.1).

Definition new_weights (b : Bucket) : gmap string N :=
  cluster_weights_map (default fresh_info b.2).

Definition new_next_index (b : Bucket) : N :=
  next_index (default fresh_info b.2).

Lemma second_pass_bucket_new_weights b w :
  new_weights (second_pass_bucket b w) =
  <[w := match map_begin (old_weights b) with
         | Some (_, index) => index
         | None => new_next_index b
         end]> (new_weights b).
Proof.
  unfold second_pass_bucket, new_weights, old_weights, new_next_index.
  by destruct (map_begin _) as [[??]|].
Qed.

Lemma second_pass_bucket_old_weights b w :
  old_weights (second_pass_bucket b w) =
  match map_begin (old_weights b) with
  | Some (reused_key, _) => delete reused_key (old_weights b)
  | None => old_weights b
  end.
Proof.
  unfold second_pass_bucket, new_weights, old_weights.
  by destruct (map_begin _) as [[??]|].
Qed.

Lemma second_pass_bucket_new_next_index b w :
  new_next_index (second_pass_bucket b w) =
  match map_begin (old_weights b) with
  | Some _ => new_next_index b
  | None => uint64_succ (new_next_index b)
  end.
Proof.
  unfold second_pass_bucket, new_next_index, old_weights.
  by destruct (map_begin _) as [[??]|].
Qed.

Lemma second_pass_bucket_is_Some b w : is_Some (second_pass_bucket b w).2.
Proof.
  unfold second_pass_bucket. by destruct (map_begin _) as [[??]|]; eexists.
Qed.

Lemma foldl_second_pass_bucket_is_Some ws b :
  is_Some (foldl second_pass_bucket b ws).2 ↔ is_Some b.2 ∨ ws ≠ [].
Proof.
  induction ws as [|w ws IH] using rev_ind; [naive_solver|].
  rewrite foldl_snoc. split.
  - intros _. right. by destruct ws.
  - intros _. apply second_pass_bucket_is_Some.
Qed.

Lemma foldl_second_pass_bucket_other ws b k :
  k ∉ ws →
  new_weights (foldl second_pass_bucket b ws) !! k = new_weights b !! k.
Proof.
  revert b. induction ws as [|w ws IH]; intros b Hk; [done|].
  apply not_elem_of_cons in Hk as [Hne Hk]. cbn [foldl].
  rewrite IH, second_pass_bucket_new_weights by done.
  by rewrite lookup_insert_ne.
Qed.

Lemma foldl_second_pass_bucket_dom ws b k :
  is_Some (new_weights (foldl second_pass_bucket b ws) !! k) ↔
  k ∈ ws ∨ is_Some (new_weights b !! k).
Proof.
  revert b. induction ws as [|w ws IH]; intros b.
  { simpl. rewrite elem_of_nil. naive_solver. }
  cbn [foldl]. rewrite IH, second_pass_bucket_new_weights.
  rewrite elem_of_cons, lookup_insert_is_Some. 
  destruct (decide (w = k)); naive_solver.
Qed.

(** * One bucket of the updated map *)

Lemma allocate_lookup table acts nk :
  allocate table acts !! nk =
  (foldl second_pass_bucket
     (foldl first_pass_bucket (table !! nk, None)
        (bucket_keys nk (sorted_items acts)))
     (bucket_keys nk (sorted_items (unsettled table acts)))).2.
Proof.
  unfold allocate, second_pass. rewrite first_pass_pending.
  change (new_map ?st !! nk) with (bucket_of nk st).2.
  rewrite foldl_second_pass_bucket. unfold first_pass.
  rewrite foldl_first_pass_bucket. cbn [pending].
  unfold bucket_of at 1. cbn [old_map new_map]. by rewrite lookup_empty.
Qed.

Lemma elem_of_unsettled_keys table acts nk wk :
  wk ∈ bucket_keys nk (sorted_items (unsettled table acts)) ↔
  acts !! wk = Some nk ∧ ¬ exact_match table wk nk.
Proof.
  rewrite elem_of_bucket_keys. unfold unsettled.
  by rewrite map_lookup_filter_Some.
Qed.

(** * The updated map holds exactly the requested actions *)

Lemma list_nonempty_elem_of {A} (l : list A) : l ≠ [] ↔ ∃ x, x ∈ l.
Proof.
  destruct l as [|x l]; split; try done.
  - by intros [? ?%elem_of_nil].
  - intros _. exists x. left.
Qed.

Lemma first_pass_bucket_new_weights (table : WeightedClusterIndexMap) acts nk k :
  new_weights (foldl first_pass_bucket (table !! nk, None)
                 (bucket_keys nk (sorted_items acts))) !! k =
  if decide (acts !! k = Some nk)
  then table !! nk ≫= λ info, cluster_weights_map info !! k
  else None.
Proof.
  destruct (table !! nk) as [ti|].
  - rewrite foldl_first_pass_bucket_Some. unfold new_weights. cbn [snd mbind option_bind].
    destruct (decide (bucket_keys _ _ = [])) as [Hnil|Hne]; simpl.
    + rewrite lookup_empty. case_decide as Hk; [|done].
      apply elem_of_bucket_keys in Hk. rewrite Hnil in Hk.
      by apply elem_of_nil in Hk.
    + rewrite lookup_filter_elem_of.
      repeat case_decide; try done; by rewrite elem_of_bucket_keys in *.
  - rewrite foldl_first_pass_bucket_None. unfold new_weights. simpl.
    rewrite lookup_empty. by case_decide.
Qed.

Lemma allocate_is_Some table acts nk :
  is_Some (allocate table acts !! nk) ↔ ∃ wk, acts !! wk = Some nk.
Proof.
  rewrite allocate_lookup, foldl_second_pass_bucket_is_Some.
  rewrite list_nonempty_elem_of.
  setoid_rewrite elem_of_unsettled_keys. split.
  - intros [Hs|[wk [Hwk _]]]; [|by exists wk].
    destruct (table !! nk) as [ti|].
    + rewrite foldl_first_pass_bucket_Some in Hs. cbn [snd] in Hs.
      case_decide as Hne; [by destruct Hs|].
      apply list_nonempty_elem_of in Hne as [wk Hwk].
      exists wk. by apply elem_of_bucket_keys in Hwk.
    + rewrite foldl_first_pass_bucket_None in Hs. by destruct Hs.
  - intros [wk Hwk]. destruct (table !! nk) as [ti|] eqn:Ht.
    + left. rewrite foldl_first_pass_bucket_Some. cbn [snd].
      rewrite decide_False; [by eexists|].
      apply list_nonempty_elem_of. exists wk. by apply elem_of_bucket_keys.
    + right. exists wk. split; [done|].
      rewrite exact_match_alt. intros (?&?&?&?). congruence.
Qed.

Lemma allocate_weights_dom table acts nk info wk :
  allocate table acts !! nk = Some info →
  is_Some (cluster_weights_map info !! wk) ↔ acts !! wk = Some nk.
Proof.
  rewrite allocate_lookup. intros Hinfo.
  assert (cluster_weights_map info =
          new_weights
            (foldl second_pass_bucket
               (foldl first_pass_bucket (table !! nk, None)
                  (bucket_keys nk (sorted_items acts)))
               (bucket_keys nk (sorted_items (unsettled table acts))))) as ->.
  { unfold new_weights. by rewrite Hinfo. }
  rewrite foldl_second_pass_bucket_dom, elem_of_unsettled_keys.
  rewrite first_pass_bucket_new_weights. unfold exact_match.
  case_decide; [|by split; [intros [[??]|[??]]|]].
  destruct (decide (is_Some (table !! nk ≫= λ info, cluster_weights_map info !! wk)));
    naive_solver.
Qed.

(** A map that holds exactly the requested actions is left as it is: every
    action is an exact match of the first pass. *)
Lemma allocate_fixed (table : WeightedClusterIndexMap) acts :
  (∀ nk, is_Some (table !! nk) ↔ ∃ wk, acts !! wk = Some nk) →
  (∀ nk info wk, table !! nk = Some info →
     is_Some (cluster_weights_map info !! wk) ↔ acts !! wk = Some nk) →
  allocate table acts = table.
Proof.
  intros Hdom Hweights. apply map_eq. intros nk. rewrite allocate_lookup.
  assert (bucket_keys nk (sorted_items (unsettled table acts)) = []) as ->.
  { destruct (bucket_keys _ _) as [|wk l] eqn:Hl; [done|]. exfalso.
    assert (wk ∈ bucket_keys nk (sorted_items (unsettled table acts))) as Hin
      by (rewrite Hl; left).
    apply elem_of_unsettled_keys in Hin as [Hwk Hno]. apply Hno.
    destruct (Hdom nk) as [_ [info Hinfo]]; [by exists wk|].
    apply exact_match_alt.
    destruct (Hweights nk info wk Hinfo) as [_ [index Hindex]]; [done|].
    by exists info, index. }
  cbn [foldl]. destruct (table !! nk) as [info|] eqn:Ht.
  - rewrite foldl_first_pass_bucket_Some. cbn [snd].
    rewrite decide_False.
    + f_equal. destruct info as [n m]. unfold carried_over, set_weights.
      cbn [next_index cluster_weights_map]. f_equal.
      apply map_filter_id. intros k v Hk. cbn [fst].
      apply elem_of_bucket_keys. apply (Hweights nk _ k Ht). by exists v.
    + apply list_nonempty_elem_of.
      destruct (Hdom nk) as [[wk Hwk] _]; [by eexists|].
      exists wk. by apply elem_of_bucket_keys.
  - by rewrite foldl_first_pass_bucket_None.
Qed.

(** ** C1 *)

(** C1 (idempotent naming). For every allocation table and every two
    consecutive updates that request the same set of unique WeightedCluster
    actions (the same [cluster_weights_key ↦ cluster_names_key] entries),
    the second run of [UpdateWeightedClusterIndexMap] leaves the map of the
    first run unchanged, so [WeightedClustersActionName] returns for every
    weighted-cluster action exactly what it returned after the first
    update. *)
Theorem idempotent_naming table update1 update2 :
  actions_to_process update1 = actions_to_process update2 →
  let map1 := UpdateWeightedClusterIndexMap table update1 in
  let map2 := UpdateWeightedClusterIndexMap map1 update2 in
  map2 = map1 ∧
  ∀ weighted_clusters,
    WeightedClustersActionName map2 weighted_clusters =
    WeightedClustersActionName map1 weighted_clusters.
Proof.
  intros Hsame map1 map2.
  assert (map2 = map1) as ->; [|done].
  unfold map2, map1, UpdateWeightedClusterIndexMap. rewrite <-Hsame.
  apply allocate_fixed.
  - intros nk. apply allocate_is_Some.
  - intros nk info wk. apply allocate_weights_dom.
Qed.

(** ** C2 *)

Lemma NoDup_elem_of_singleton {A} (l : list A) a :
  NoDup l → (∀ x, x ∈ l ↔ x = a) → l = [a].
Proof.
  intros Hnd Hl. destruct l as [|x l].
  { exfalso. eapply elem_of_nil. by apply Hl. }
  assert (x = a) as -> by (apply Hl; left).
  f_equal. destruct l as [|y l]; [done|]. exfalso.
  assert (y = a) as -> by (apply Hl; right; left).
  apply NoDup_cons in Hnd as [Hnd _]. apply Hnd. left.
Qed.

(** C2 (reuse over churn), as the code has it. The table holds an action
    [A] (key [wkA], index [indexA]) in the bucket [S]; the update does not
    request [A] and requests exactly one action [B] (key [wkB]) over [S]
    that is not in the bucket yet.  If [A] is the lexicographically
    smallest entry of the bucket that the update does not request again
    (in particular, if it is the only one), [B] is assigned [A]'s former
    index and the bucket's [next_index] is unchanged. *)
Theorem reuse_over_churn table update S info wkA indexA wkB :
  let acts := actions_to_process update in
  table !! S = Some info →
  cluster_weights_map info !! wkA = Some indexA →
  acts !! wkA ≠ Some S →
  acts !! wkB = Some S →
  cluster_weights_map info !! wkB = None →
  (∀ wk, acts !! wk = Some S → wk ≠ wkB →
         is_Some (cluster_weights_map info !! wk)) →
  (∀ wk, is_Some (cluster_weights_map info !! wk) → acts !! wk ≠ Some S →
         String.le wkA wk) →
  ∃ info',
    UpdateWeightedClusterIndexMap table update !! S = Some info' ∧
    cluster_weights_map info' !! wkB = Some indexA ∧
    next_index info' = next_index info.
Proof.
  intros acts Ht HA Hdrop HB Hnew Hone Hmin.
  unfold UpdateWeightedClusterIndexMap. fold acts.
  rewrite allocate_lookup, Ht, foldl_first_pass_bucket_Some.
  assert (wkB ∈ bucket_keys S (sorted_items acts)) as HBws
    by by apply elem_of_bucket_keys.
  assert (wkA ∉ bucket_keys S (sorted_items acts)) as HAws
    by by rewrite elem_of_bucket_keys.
  assert (∀ k, k ∉ bucket_keys S (sorted_items acts) → acts !! k ≠ Some S)
    as Hws by (intros k; by rewrite elem_of_bucket_keys).
  generalize dependent (bucket_keys S (sorted_items acts)). intros ws ???.
  rewrite decide_False by (apply list_nonempty_elem_of; eauto).
  assert (bucket_keys S (sorted_items (unsettled table acts)) = [wkB]) as ->.
  { apply NoDup_elem_of_singleton; [apply NoDup_bucket_keys|].
    intros wk. rewrite elem_of_unsettled_keys, exact_match_alt. split.
    - intros [Hwk Hno]. destruct (decide (wk = wkB)) as [|Hne]; [done|].
      destruct (Hone wk Hwk Hne) as [index Hindex].
      destruct Hno. eauto.
    - intros ->. split; [done|]. intros (?&?&?&?). congruence. }
  cbn [foldl].
  set (b := (Some (left_over info ws), Some (carried_over info ws))).
  destruct (second_pass_bucket_is_Some b wkB) as [info' Hinfo'].
  exists info'. split; [done|].
  assert (cluster_weights_map info' =
          new_weights (second_pass_bucket b wkB)) as ->
    by (unfold new_weights; by rewrite Hinfo').
  assert (next_index info' =
          new_next_index (second_pass_bucket b wkB)) as ->
    by (unfold new_next_index; by rewrite Hinfo').
  rewrite second_pass_bucket_new_weights, second_pass_bucket_new_next_index.
  rewrite lookup_insert_eq.
  assert (old_weights b !! wkA = Some indexA) as HAold.
  { unfold old_weights, b, left_over. cbn.
    by rewrite lookup_filter_not_elem_of, decide_False. }
  destruct (map_begin (old_weights b)) as [[k index]|] eqn:Hbegin.
  - split; [|done]. apply map_begin_Some in Hbegin as [Hk Hle].
    assert (k = wkA) as ->; [|congruence].
    apply (anti_symm String.le); [apply Hle; by eexists|].
    unfold old_weights, b, left_over in Hk. cbn in Hk.
    rewrite lookup_filter_not_elem_of in Hk. case_decide as Hkws; [done|].
    apply Hmin; [by eexists|]. by apply Hws.
  - apply map_begin_None in Hbegin.
    by rewrite Hbegin, lookup_empty in HAold.
Qed.

(** ** C3 *)

Lemma bucket_keys_elem_of_fst nk (l : list (string * string)) wk :
  wk ∈ bucket_keys nk l → wk ∈ l.*1.
Proof.
  unfold bucket_keys. rewrite !list_elem_of_fmap.
  intros (a & -> & [_ Hin]%list_elem_of_filter). by exists a.
Qed.

Lemma second_pass_step_reuse st wk nk old_info reused_key index :
  old_map st !! nk = Some old_info →
  map_begin (cluster_weights_map old_info) = Some (reused_key, index) →
  old_map (second_pass_step st (wk, nk)) !! nk =
    Some (set_weights old_info
            (delete reused_key (cluster_weights_map old_info))) ∧
  new_weights (bucket_of nk (second_pass_step st (wk, nk))) !! wk = Some index.
Proof.
  intros Hold Hbegin. unfold second_pass_step, bucket_of, new_weights.
  rewrite Hold. cbn [default from_option id]. rewrite Hbegin.
  cbn. rewrite !lookup_insert_eq. cbn. by rewrite lookup_insert_eq.
Qed.

(** C3 (deterministic tie-break). The reuse pass walks the unsettled
    actions in ascending [cluster_weights_key] order.  When it reaches an
    action [(wk, nk)] and the old bucket of [nk] still has entries, the
    entry with the lexicographically smallest remaining key is erased from
    the old bucket and its index is what the updated map holds for [wk]. *)
Theorem reuse_pass_takes_smallest st pre wk nk post old_info :
  sorted_items (pending st) = (pre ++ (wk, nk) :: post)%list →
  let st_at := foldl second_pass_step st pre in
  old_map st_at !! nk = Some old_info →
  cluster_weights_map old_info ≠ ∅ →
  StronglySorted String.le (sorted_items (pending st)).*1 ∧
  NoDup (sorted_items (pending st)).*1 ∧
  ∃ reused_key index,
    cluster_weights_map old_info !! reused_key = Some index ∧
    (∀ k, is_Some (cluster_weights_map old_info !! k) →
          String.le reused_key k) ∧
    old_map (second_pass_step st_at (wk, nk)) !! nk =
      Some (set_weights old_info
              (delete reused_key (cluster_weights_map old_info))) ∧
    ∃ new_info,
      new_map (second_pass st) !! nk = Some new_info ∧
      cluster_weights_map new_info !! wk = Some index.
Proof.
  intros Hsplit st_at Hold Hne.
  split; [|split].
  { apply (StronglySorted_fmap fst key_le); [by intros ??|].
    apply sorted_items_sorted. }
  { apply NoDup_fst_sorted_items. }
  destruct (map_begin (cluster_weights_map old_info))
    as [[reused_key index]|] eqn:Hbegin;
    [|by apply map_begin_None in Hbegin].
  exists reused_key, index.
  destruct (map_begin_Some _ _ _ Hbegin) as [Hk Hmin].
  destruct (second_pass_step_reuse st_at wk nk _ _ _ Hold Hbegin)
    as [Hold' Hnew'].
  do 3 (split; [done|]).
  unfold second_pass. rewrite Hsplit, foldl_app. cbn [foldl]. fold st_at.
  set (st' := second_pass_step st_at (wk, nk)) in *.
  assert (wk ∉ bucket_keys nk post) as Hfresh.
  { pose proof (NoDup_fst_sorted_items (pending st)) as Hnd.
    rewrite Hsplit, fmap_app, fmap_cons in Hnd.
    apply NoDup_app in Hnd as (_ & _ & [Hnin _]%NoDup_cons).
    intros Hin. apply Hnin. by eapply bucket_keys_elem_of_fst. }
  pose proof (foldl_second_pass_bucket nk post st') as Hb.
  destruct (new_map (foldl second_pass_step st' post) !! nk)
    as [new_info|] eqn:Hnew.
  - exists new_info. split; [done|].
    pose proof (foldl_second_pass_bucket_other _ (bucket_of nk st') _ Hfresh)
      as Hother.
    rewrite <-Hb, Hnew' in Hother. unfold new_weights, bucket_of in Hother.
    cbn [snd] in Hother. by rewrite Hnew in Hother.
  - exfalso.
    assert (is_Some (bucket_of nk (foldl second_pass_step st' post)).2) as Hs.
    { rewrite Hb. apply foldl_second_pass_bucket_is_Some. left.
      unfold st'. rewrite second_pass_step_bucket, decide_True by done.
      apply second_pass_bucket_is_Some. }
    unfold bucket_of in Hs. cbn [snd] in Hs. rewrite Hnew in Hs.
    by destruct Hs.
Qed.

(** * The index invariant *)

Definition indices_unique (m : gmap string N) : Prop :=
  ∀ wk1 wk2 index, m !! wk1 = Some index → m !! wk2 = Some index → wk1 = wk2.

Definition indices_below (m : gmap string N) (n : N) : Prop :=
  ∀ wk index, m !! wk = Some index → (index < n)%N.

(** A bucket of the table: indices are pairwise distinct, and all of them
    were handed out by [next_index]. *)
Definition bucket_wf (info : ClusterNamesInfo) : Prop :=
  indices_unique (cluster_weights_map info) ∧
  indices_below (cluster_weights_map info) (next_index info).

Definition table_wf (table : WeightedClusterIndexMap) (bound : N) : Prop :=
  ∀ nk info, table !! nk = Some info →
    bucket_wf info ∧ (next_index info ≤ bound)%N.

(** The invariant of the second loop on one bucket: what is already in the
    new bucket and what is still reusable in the old one never share an
    index. *)
Definition pass_inv (b : Bucket) (bound : N) : Prop :=
  indices_unique (new_weights b) ∧
  indices_below (new_weights b) (new_next_index b) ∧
  indices_unique (old_weights b) ∧
  indices_below (old_weights b) (new_next_index b) ∧
  (∀ wk wk' index, new_weights b !! wk = Some index →
                   old_weights b !! wk' = Some index → False) ∧
  (new_next_index b ≤ bound)%N.

Lemma uint64_succ_small n : (n + 1 < 2 ^ 64)%N → uint64_succ n = (n + 1)%N.
Proof. intros. unfold uint64_succ. by apply N.mod_small. Qed.

Lemma second_pass_bucket_inv b w bound :
  pass_inv b bound → (bound + 1 < 2 ^ 64)%N →
  pass_inv (second_pass_bucket b w) (bound + 1) ∧
  (new_next_index b ≤ new_next_index (second_pass_bucket b w))%N.
Proof.
  intros (Hun & Hbn & Huo & Hbo & Hdisj & Hbound) Hsmall.
  unfold pass_inv.
  rewrite second_pass_bucket_new_weights, second_pass_bucket_old_weights,
    second_pass_bucket_new_next_index.
  destruct (map_begin (old_weights b)) as [[k index]|] eqn:Hbegin.
  - apply map_begin_Some in Hbegin as [Hk _].
    split; [|lia]. repeat split.
    + intros wk1 wk2 i. rewrite !lookup_insert_Some.
      intros [[<- <-]|[? H1]] [[<- ?]|[? H2]]; try done.
      * subst. destruct (Hdisj _ _ _ H2 Hk).
      * subst. destruct (Hdisj _ _ _ H1 Hk).
      * by eapply Hun.
    + intros wk i. rewrite lookup_insert_Some.
      intros [[<- <-]|[? H1]]; [by eapply Hbo|by eapply Hbn].
    + intros wk1 wk2 i. rewrite !lookup_delete_Some.
      intros [_ H1] [_ H2]. by eapply Huo.
    + intros wk i. rewrite lookup_delete_Some. intros [_ H1]. by eapply Hbo.
    + intros wk wk' i. rewrite lookup_insert_Some, lookup_delete_Some.
      intros [[<- <-]|[? H1]] [Hne H2].
      * apply Hne. by eapply Huo.
      * by eapply Hdisj.
    + lia.
  - apply map_begin_None in Hbegin. rewrite Hbegin.
    rewrite uint64_succ_small by lia.
    split; [|lia]. repeat split.
    + intros wk1 wk2 i. rewrite !lookup_insert_Some.
      intros [[<- <-]|[? H1]] [[<- ?]|[? H2]]; try done.
      * subst. apply Hbn in H2. lia.
      * subst. apply Hbn in H1. lia.
      * by eapply Hun.
    + intros wk i. rewrite lookup_insert_Some.
      intros [[<- <-]|[? H1]]; [lia|]. apply Hbn in H1. lia.
    + intros ???. by rewrite lookup_empty.
    + intros ??. by rewrite lookup_empty.
    + intros ????. by rewrite lookup_empty.
    + lia.
Qed.

Lemma foldl_second_pass_bucket_inv ws : ∀ b bound,
  pass_inv b bound → (bound + N.of_nat (length ws) < 2 ^ 64)%N →
  pass_inv (foldl second_pass_bucket b ws) (bound + N.of_nat (length ws)) ∧
  (new_next_index b ≤ new_next_index (foldl second_pass_bucket b ws))%N.
Proof.
  induction ws as [|w ws IH]; intros b bound Hinv Hsmall.
  { simpl. rewrite N.add_0_r. done. }
  cbn [foldl]. cbn [length] in *.
  destruct (second_pass_bucket_inv b w bound Hinv) as [Hinv' Hle]; [lia|].
  destruct (IH _ _ Hinv') as [Hinv'' Hle']; [lia|].
  replace (bound + N.of_nat (S (length ws)))%N
    with (bound + 1 + N.of_nat (length ws))%N by lia.
  split; [done|lia].
Qed.

Lemma pass_inv_weaken b bound bound' :
  pass_inv b bound → (bound ≤ bound')%N → pass_inv b bound'.
Proof. intros (?&?&?&?&?&?) ?. repeat split; try done. lia. Qed.

Lemma pass_inv_empty bound : pass_inv (None, None) bound.
Proof.
  unfold pass_inv, new_weights, old_weights, new_next_index,
    indices_unique, indices_below. simpl.
  setoid_rewrite lookup_empty. repeat split; try done. lia.
Qed.

(** After the first pass the bucket is split in two; both halves inherit
    the invariant of the table. *)
Lemma pass_inv_split info ws bound :
  bucket_wf info → (next_index info ≤ bound)%N →
  pass_inv (Some (left_over info ws), Some (carried_over info ws)) bound.
Proof.
  intros [Hu Hb] Hle.
  unfold pass_inv, new_weights, old_weights, new_next_index,
    left_over, carried_over. cbn.
  repeat split.
  - intros wk1 wk2 i. rewrite !lookup_filter_elem_of.
    repeat case_decide; try done. apply Hu.
  - intros wk i. rewrite lookup_filter_elem_of. case_decide; [|done]. apply Hb.
  - intros wk1 wk2 i. rewrite !lookup_filter_not_elem_of.
    repeat case_decide; try done. apply Hu.
  - intros wk i. rewrite lookup_filter_not_elem_of.
    case_decide; [done|]. apply Hb.
  - intros wk wk' i. rewrite lookup_filter_elem_of, lookup_filter_not_elem_of.
    repeat case_decide; try done. intros H1 H2.
    assert (wk = wk') as -> by by eapply Hu. done.
  - done.
Qed.

Lemma length_sorted_items {V} (m : gmap string V) :
  length (sorted_items m) = size m.
Proof.
  rewrite <-length_map_to_list. apply Permutation_length, sorted_items_perm.
Qed.

Lemma length_unsettled_keys table acts nk :
  (length (bucket_keys nk (sorted_items (unsettled table acts))) ≤ size acts)%nat.
Proof.
  unfold bucket_keys. rewrite length_fmap.
  etrans; [apply length_filter|]. rewrite length_sorted_items.
  apply map_subseteq_size, map_filter_subseteq.
Qed.

(** One update keeps the table well formed, and a bucket that is in the
    table before and after the update keeps or raises its [next_index]. *)
Lemma allocate_wf table acts bound :
  table_wf table bound →
  (bound + N.of_nat (size acts) < 2 ^ 64)%N →
  table_wf (allocate table acts) (bound + N.of_nat (size acts)) ∧
  ∀ nk info info',
    table !! nk = Some info → allocate table acts !! nk = Some info' →
    (next_index info ≤ next_index info')%N.
Proof.
  intros Hwf Hsmall.
  assert (∀ nk info',
    allocate table acts !! nk = Some info' →
    (bucket_wf info' ∧ (next_index info' ≤ bound + N.of_nat (size acts))%N) ∧
    ∀ info, table !! nk = Some info →
            (next_index info ≤ next_index info')%N) as Hmain.
  { intros nk info' Hinfo'.
    pose proof (allocate_is_Some table acts nk) as [Hreq _].
    destruct Hreq as [wk0 Hwk0]; [by eexists|].
    rewrite allocate_lookup in Hinfo'.
    pose proof (length_unsettled_keys table acts nk) as Hlen.
    set (ws2 := bucket_keys nk (sorted_items (unsettled table acts))) in *.
    assert (∃ b, foldl first_pass_bucket (table !! nk, None)
                   (bucket_keys nk (sorted_items acts)) = b ∧
                 pass_inv b bound ∧
                 ∀ info, table !! nk = Some info →
                         new_next_index b = next_index info)
      as (b & Hb & Hinv & Hnext).
    { destruct (table !! nk) as [info|] eqn:Ht.
      - rewrite foldl_first_pass_bucket_Some.
        rewrite decide_False
          by (apply list_nonempty_elem_of; exists wk0;
              by apply elem_of_bucket_keys).
        eexists. split; [done|]. destruct (Hwf _ _ Ht) as [Hbw Hle].
        split; [by apply pass_inv_split|].
        by intros ? [= <-].
      - rewrite foldl_first_pass_bucket_None.
        eexists. split; [done|]. split; [apply pass_inv_empty|done]. }
    rewrite Hb in Hinfo'.
    destruct (foldl_second_pass_bucket_inv ws2 b bound Hinv) as [Hinv' Hmono];
      [lia|].
    apply (pass_inv_weaken _ _ (bound + N.of_nat (size acts))) in Hinv';
      [|lia].
    destruct Hinv' as (Hun & Hbn & _ & _ & _ & Hbound).
    unfold new_weights, new_next_index in *. rewrite Hinfo' in *.
    cbn [default from_option id] in *.
    split; [done|]. intros info Ht. rewrite <-(Hnext _ Ht). done. }
  split.
  - intros nk info' Hinfo'. by destruct (Hmain _ _ Hinfo').
  - intros nk info info' Ht Hinfo'. destruct (Hmain _ _ Hinfo') as [_ Hle].
    by apply Hle.
Qed.

(** * Sequences of updates *)

(** The map after the updates [us], applied in order to [table]. *)
Definition run_updates (table : WeightedClusterIndexMap)
    (us : list RdsUpdate) : WeightedClusterIndexMap :=
  foldl UpdateWeightedClusterIndexMap table us.

(** The number of routes received so far.  Every [next_index++] is paid
    for by a route, so fewer than [2 ^ 64] routes cannot wrap a
    [next_index] around. *)
Definition total_routes (us : list RdsUpdate) : nat :=
  sum_list_with (λ u, length (routes u)) us.

Lemma size_add_action acts route :
  (size (add_action acts route) ≤ S (size acts))%nat.
Proof.
  unfold add_action. case_decide; [lia|].
  destruct (acts !! _) eqn:Hk; [lia|].
  by rewrite map_size_insert_None.
Qed.

Lemma size_actions_to_process update :
  (size (actions_to_process update) ≤ length (routes update))%nat.
Proof.
  unfold actions_to_process.
  induction (routes update) as [|r l IH] using rev_ind.
  { simpl. by rewrite map_size_empty. }
  rewrite foldl_snoc, length_app. simpl.
  pose proof (size_add_action (foldl add_action ∅ l) r). lia.
Qed.

Lemma table_wf_weaken table bound bound' :
  table_wf table bound → (bound ≤ bound')%N → table_wf table bound'.
Proof.
  intros Hwf Hle nk info Hinfo. destruct (Hwf _ _ Hinfo). split; [done|lia].
Qed.

Lemma UpdateWeightedClusterIndexMap_wf table update bound :
  table_wf table bound →
  (bound + N.of_nat (length (routes update)) < 2 ^ 64)%N →
  table_wf (UpdateWeightedClusterIndexMap table update)
    (bound + N.of_nat (length (routes update))) ∧
  ∀ nk info info',
    table !! nk = Some info →
    UpdateWeightedClusterIndexMap table update !! nk = Some info' →
    (next_index info ≤ next_index info')%N.
Proof.
  intros Hwf Hsmall. pose proof (size_actions_to_process update) as Hsize.
  destruct (allocate_wf table (actions_to_process update) bound Hwf)
    as [Hwf' Hmono]; [lia|].
  split; [|done]. eapply table_wf_weaken; [done|lia].
Qed.

Lemma run_updates_snoc table us u :
  run_updates table (us ++ [u]) =
  UpdateWeightedClusterIndexMap (run_updates table us) u.
Proof. unfold run_updates. by rewrite foldl_snoc. Qed.

Lemma total_routes_snoc us u :
  total_routes (us ++ [u]) = (total_routes us + length (routes u))%nat.
Proof. unfold total_routes. rewrite sum_list_with_app. simpl. lia. Qed.

Lemma run_updates_wf us :
  (N.of_nat (total_routes us) < 2 ^ 64)%N →
  table_wf (run_updates ∅ us) (N.of_nat (total_routes us)).
Proof.
  induction us as [|u us IH] using rev_ind; intros Hsmall.
  { intros nk info. unfold run_updates. simpl. by rewrite lookup_empty. }
  rewrite run_updates_snoc, total_routes_snoc in *.
  rewrite Nat2N.inj_add in *.
  apply UpdateWeightedClusterIndexMap_wf; [|done]. apply IH. lia.
Qed.

Lemma foldl_second_pass_bucket_fresh ws : ∀ b,
  old_weights b = ∅ → NoDup ws →
  (new_next_index b + N.of_nat (length ws) < 2 ^ 64)%N →
  new_next_index (foldl second_pass_bucket b ws) =
    (new_next_index b + N.of_nat (length ws))%N ∧
  ∀ i wk, ws !! i = Some wk →
    new_weights (foldl second_pass_bucket b ws) !! wk =
      Some (new_next_index b + N.of_nat i)%N.
Proof.
  induction ws as [|w ws IH]; intros b Hold Hnd Hsmall.
  { simpl. split; [lia|]. intros i wk. by rewrite lookup_nil. }
  apply NoDup_cons in Hnd as [Hw Hnd]. cbn [foldl]. cbn [length] in *.
  assert (map_begin (old_weights b) = None) as Hbegin
    by by apply map_begin_None.
  destruct (IH (second_pass_bucket b w)) as [Hnext Hlookup]; [|done| |].
  { by rewrite second_pass_bucket_old_weights, Hbegin. }
  { rewrite second_pass_bucket_new_next_index, Hbegin.
    rewrite uint64_succ_small by lia. lia. }
  rewrite second_pass_bucket_new_next_index, Hbegin in Hnext, Hlookup.
  rewrite uint64_succ_small in Hnext, Hlookup by lia.
  split; [lia|]. intros [|i] wk Hi.
  - injection Hi as ->.
    rewrite foldl_second_pass_bucket_other by done.
    rewrite second_pass_bucket_new_weights, Hbegin, lookup_insert_eq.
    f_equal. lia.
  - rewrite (Hlookup i wk Hi). f_equal. lia.
Qed.

Lemma size_weights_of_keys (m : gmap string N) (ws : list string) :
  NoDup ws → (∀ wk, is_Some (m !! wk) ↔ wk ∈ ws) → size m = length ws.
Proof.
  intros Hnd Hdom. rewrite <-size_dom.
  assert (dom m = list_to_set ws) as ->.
  { apply set_eq. intros wk. by rewrite elem_of_dom, elem_of_list_to_set. }
  by apply size_list_to_set.
Qed.

(** A bucket that the map does not hold before the update is numbered
    from 0: [next_index] is the number of its entries, and every index is
    below it. *)
Lemma allocate_fresh_bucket table acts nk info :
  table !! nk = None →
  (N.of_nat (size acts) < 2 ^ 64)%N →
  allocate table acts !! nk = Some info →
  next_index info = N.of_nat (size (cluster_weights_map info)) ∧
  indices_below (cluster_weights_map info) (next_index info).
Proof.
  intros Ht Hsmall Hinfo.
  rewrite allocate_lookup, Ht, foldl_first_pass_bucket_None in Hinfo.
  pose proof (length_unsettled_keys table acts nk) as Hlen.
  pose proof (NoDup_bucket_keys nk (unsettled table acts)) as Hnd.
  set (ws := bucket_keys nk (sorted_items (unsettled table acts))) in *.
  destruct (foldl_second_pass_bucket_fresh ws (None, None))
    as [Hnext Hlookup]; [done|done|cbn; lia|].
  pose proof (foldl_second_pass_bucket_dom ws (None, None)) as Hdom.
  unfold new_next_index, new_weights in Hnext, Hlookup, Hdom.
  rewrite Hinfo in Hnext, Hlookup, Hdom. cbn in Hnext, Hlookup, Hdom.
  assert (∀ wk, is_Some (cluster_weights_map info !! wk) ↔ wk ∈ ws) as Hkeys.
  { intros wk. rewrite Hdom, lookup_empty. split; [|by left].
    intros [?|[? [=]]]. done. }
  split.
  - rewrite Hnext, (size_weights_of_keys _ ws Hnd Hkeys). lia.
  - intros wk index Hwk.
    assert (wk ∈ ws) as [i Hi]%list_elem_of_lookup by (apply Hkeys; by eexists).
    rewrite (Hlookup i wk Hi) in Hwk. injection Hwk as <-.
    apply lookup_lt_Some in Hi. lia.
Qed.

(** ** C4 *)

(** C4 (index invariant), as the code has it. Start from the empty table
    and apply any sequence of updates that carries fewer than [2 ^ 64]
    routes in total.  After each update, the indices of the entries of
    every bucket are pairwise distinct; a bucket that is present both
    before and after the update has not lowered its [next_index]; and a
    bucket that is absent before the update (never created, or dropped by
    an earlier update) and present after it is created afresh, numbered
    from 0: its indices are below its [next_index], which is the number of
    its entries. *)
Theorem index_invariant us u :
  (N.of_nat (total_routes (us ++ [u])) < 2 ^ 64)%N →
  let before := run_updates ∅ us in
  let after := UpdateWeightedClusterIndexMap before u in
  (∀ nk info, after !! nk = Some info →
     indices_unique (cluster_weights_map info)) ∧
  (∀ nk info info',
     before !! nk = Some info → after !! nk = Some info' →
     (next_index info ≤ next_index info')%N) ∧
  (∀ nk info',
     before !! nk = None → after !! nk = Some info' →
     next_index info' = N.of_nat (size (cluster_weights_map info')) ∧
     ∀ wk index, cluster_weights_map info' !! wk = Some index →
                 (index < next_index info')%N).
Proof.
  intros Hsmall before after.
  rewrite total_routes_snoc, Nat2N.inj_add in Hsmall.
  destruct (UpdateWeightedClusterIndexMap_wf before u
              (N.of_nat (total_routes us))) as [Hwf Hmono]; [|done|].
  { apply run_updates_wf. lia. }
  split; [|split; [done|]].
  - intros nk info Hinfo. by destruct (Hwf _ _ Hinfo) as [[? _] _].
  - intros nk info' Hbefore Hafter.
    pose proof (size_actions_to_process u) as Hsize.
    apply (allocate_fresh_bucket before (actions_to_process u) nk);
      [done|lia|done].
Qed.

(** * Concrete updates *)

Module Examples.

Definition prefix_matchers (prefix : string) : Matchers :=
  {| path_matcher :=
       {| path_type := PathMatcherType.PREFIX; path_string_matcher := prefix;
          path_regex_pattern := "" |};
     header_matchers := [];
     fraction_per_million := None |}.

(** A route to one cluster. *)
Definition to_cluster (prefix cluster : string) : RdsRoute :=
  {| matchers := prefix_matchers prefix;
     cluster_name := cluster;
     weighted_clusters := [] |}.

Definition clusters (l : list (string * N)) : list ClusterWeight :=
  (λ p, {| name := p.1; weight := p.2 |}) <$> l.

(** A route to a weighted set of clusters. *)
Definition to_weighted (prefix : string) (l : list (string * N))
  : RdsRoute :=
  {| matchers := prefix_matchers prefix;
     cluster_name := "";
     weighted_clusters := clusters l |}.

Definition xy_10_90 := to_weighted "/a" [("x", 10%N); ("y", 90%N)].
Definition xy_20_80 := to_weighted "/b" [("x", 20%N); ("y", 80%N)].
Definition yx_90_10 := to_weighted "/c" [("y", 90%N); ("x", 10%N)].
Definition xy_50_50 := to_weighted "/d" [("x", 50%N); ("y", 50%N)].

(** The bucket ["x_y"] with the two actions [x:10,y:90] (index 0) and
    [x:20,y:80] (index 1). *)
Definition two_actions : WeightedClusterIndexMap :=
  {[ "x_y" := {| next_index := 2;
                 cluster_weights_map :=
                   {[ "x_10_y_90" := 0%N; "x_20_y_80" := 1%N ]} |} ]}.

(** The bucket ["x_y"] with the one action [x:10,y:90] (index 0). *)
Definition one_action : WeightedClusterIndexMap :=
  {[ "x_y" := {| next_index := 1;
                 cluster_weights_map := {[ "x_10_y_90" := 0%N ]} |} ]}.

Example two_actions_allocated :
  UpdateWeightedClusterIndexMap ∅ {| routes := [xy_10_90; xy_20_80] |}
  = two_actions.
Proof. vm_compute. reflexivity. Qed.

Example keys_xy_10_90 :
  GetWeightedClustersKey (clusters [("y", 90%N); ("x", 10%N)]) =
  {| cluster_names_key := "x_y"; cluster_weights_key := "x_10_y_90" |}.
Proof. vm_compute. reflexivity. Qed.

Example name_xy_10_90 :
  WeightedClustersActionName two_actions
    (clusters [("y", 90%N); ("x", 10%N)]) = Some "x_y_0".
Proof. vm_compute. reflexivity. Qed.

Definition only_xy_50_50 : RdsUpdate := {| routes := [xy_50_50] |}.
Definition both_xy : RdsUpdate := {| routes := [xy_10_90; xy_20_80] |}.
Definition no_weighted : RdsUpdate := {| routes := [to_cluster "/e" "z"] |}.

(** One new action over [x] and [y], and one over the cluster set [z]. *)
Definition xy_50_50_and_z : RdsUpdate :=
  {| routes := [xy_50_50; to_weighted "/f" [("z", 100%N)]] |}.

(** Two weighted routes with different cluster sets, ["a_1_b"] and
    ["a_b"], and the same [cluster_weights_key] ["a_1_b_2"]. *)
Definition colliding : RdsUpdate :=
  {| routes := [to_weighted "/a" [("a_1_b", 2%N)];
                to_weighted "/b" [("a", 1%N); ("b", 2%N)]] |}.

Example colliding_keys :
  GetWeightedClustersKey (clusters [("a_1_b", 2%N)]) =
    {| cluster_names_key := "a_1_b"; cluster_weights_key := "a_1_b_2" |} ∧
  GetWeightedClustersKey (clusters [("a", 1%N); ("b", 2%N)]) =
    {| cluster_names_key := "a_b"; cluster_weights_key := "a_1_b_2" |}.
Proof. split; vm_compute; reflexivity. Qed.

End Examples.

Lemma idempotent_naming_witness :
  let update1 := {| routes := [Examples.xy_10_90; Examples.xy_20_80] |} in
  let update2 :=
    {| routes := [Examples.xy_20_80; Examples.to_cluster "/e" "z";
                  Examples.yx_90_10] |} in
  actions_to_process update1 = actions_to_process update2 ∧
  let map1 := UpdateWeightedClusterIndexMap Examples.one_action update1 in
  let map2 := UpdateWeightedClusterIndexMap map1 update2 in
  map2 = map1 ∧
  ∀ weighted_clusters,
    WeightedClustersActionName map2 weighted_clusters =
    WeightedClustersActionName map1 weighted_clusters.
Proof.
  intros update1 update2.
  assert (actions_to_process update1 = actions_to_process update2) as H
    by (vm_compute; reflexivity).
  split; [exact H|].
  exact (idempotent_naming Examples.one_action update1 update2 H).
Defined.

(** C2 as stated fails when the update drops two entries of the bucket.
    The table holds [x:10,y:90] at index 0 and [x:20,y:80] at index 1; the
    update drops both and requests the one new action [x:50,y:50].  With
    [A] the action [x:20,y:80], the new action is not assigned [A]'s index
    1 but index 0, that of the smaller key ["x_10_y_90"]. *)
Lemma reuse_over_churn_counterexample :
  (Examples.two_actions !! "x_y"
     ≫= λ info, cluster_weights_map info !! "x_20_y_80") = Some 1%N ∧
  actions_to_process Examples.only_xy_50_50 = {[ "x_50_y_50" := "x_y" ]} ∧
  (UpdateWeightedClusterIndexMap Examples.two_actions Examples.only_xy_50_50
     !! "x_y" ≫= λ info, cluster_weights_map info !! "x_50_y_50")
    = Some 0%N ∧
  next_index <$>
    (UpdateWeightedClusterIndexMap Examples.two_actions Examples.only_xy_50_50
       !! "x_y") = Some 2%N.
Proof. repeat split; vm_compute; reflexivity. Qed.

Lemma reuse_over_churn_witness :
  ∃ info',
    UpdateWeightedClusterIndexMap Examples.one_action Examples.only_xy_50_50
      !! "x_y" = Some info' ∧
    cluster_weights_map info' !! "x_50_y_50" = Some 0%N ∧
    next_index info' = 1%N.
Proof.
  assert (actions_to_process Examples.only_xy_50_50
          = {[ "x_50_y_50" := "x_y" ]}) as Hacts
    by (vm_compute; reflexivity).
  apply (reuse_over_churn Examples.one_action Examples.only_xy_50_50 "x_y"
           {| next_index := 1;
              cluster_weights_map := {[ "x_10_y_90" := 0%N ]} |}
           "x_10_y_90" 0%N "x_50_y_50").
  - vm_compute; reflexivity.
  - vm_compute; reflexivity.
  - rewrite Hacts. vm_compute. discriminate.
  - vm_compute; reflexivity.
  - vm_compute; reflexivity.
  - rewrite Hacts. intros wk [-> _]%lookup_singleton_Some Hne. by destruct Hne.
  - cbn [cluster_weights_map].
    intros wk [index [-> _]%lookup_singleton_Some] _. reflexivity.
Defined.

Lemma reuse_pass_takes_smallest_witness :
  let st := {| old_map := Examples.two_actions; new_map := ∅;
               pending := {[ "x_50_y_50" := "x_y" ]} |} in
  let old_info := {| next_index := 2;
                     cluster_weights_map :=
                       {[ "x_10_y_90" := 0%N; "x_20_y_80" := 1%N ]} |} in
  StronglySorted String.le (sorted_items (pending st)).*1 ∧
  NoDup (sorted_items (pending st)).*1 ∧
  ∃ reused_key index,
    cluster_weights_map old_info !! reused_key = Some index ∧
    (∀ k, is_Some (cluster_weights_map old_info !! k) →
          String.le reused_key k) ∧
    old_map (second_pass_step st ("x_50_y_50", "x_y")) !! "x_y" =
      Some (set_weights old_info
              (delete reused_key (cluster_weights_map old_info))) ∧
    ∃ new_info,
      new_map (second_pass st) !! "x_y" = Some new_info ∧
      cluster_weights_map new_info !! "x_50_y_50" = Some index.
Proof.
  intros st old_info.
  apply (reuse_pass_takes_smallest st [] "x_50_y_50" "x_y" [] old_info).
  - vm_compute; reflexivity.
  - vm_compute; reflexivity.
  - intros Hempty. apply (f_equal (lookup "x_10_y_90")) in Hempty.
    vm_compute in Hempty. discriminate.
Defined.

(** C4 as stated fails across a gap: a bucket that an update drops is
    created afresh when a later update asks for it again.  ["x_y"] has
    [next_index = 2] after the first update, is absent after the second
    one, and is back with [next_index = 1] after the third. *)
Lemma index_invariant_counterexample :
  next_index <$> (run_updates ∅ [Examples.both_xy] !! "x_y") = Some 2%N ∧
  run_updates ∅ [Examples.both_xy; Examples.no_weighted] !! "x_y" = None ∧
  next_index <$>
    (run_updates ∅ [Examples.both_xy; Examples.no_weighted;
                    Examples.only_xy_50_50] !! "x_y") = Some 1%N.
Proof. repeat split; vm_compute; reflexivity. Qed.

(** The bucket ["x_y"] is in the map before and after the update
    ([next_index] 2 and 2); the bucket ["z"] is new ([next_index] 1, one
    entry with index 0). *)
Lemma index_invariant_witness :
  let before := run_updates ∅ [Examples.both_xy] in
  let after := UpdateWeightedClusterIndexMap before Examples.xy_50_50_and_z in
  (∀ nk info, after !! nk = Some info →
     indices_unique (cluster_weights_map info)) ∧
  (∀ nk info info',
     before !! nk = Some info → after !! nk = Some info' →
     (next_index info ≤ next_index info')%N) ∧
  (∀ nk info',
     before !! nk = None → after !! nk = Some info' →
     next_index info' = N.of_nat (size (cluster_weights_map info')) ∧
     ∀ wk index, cluster_weights_map info' !! wk = Some index →
                 (index < next_index info')%N).
Proof.
  apply (index_invariant [Examples.both_xy] Examples.xy_50_50_and_z).
  vm_compute. reflexivity.
Defined.

(** * Watcher callbacks: what is delivered *)

Section ResolverFacts.

Context {ServiceConfig grpc_error grpc_arg : Type}.
Variable ServiceConfig_Create :
  string → option ServiceConfig * option grpc_error.

Implicit Types (w : @Resolving ServiceConfig grpc_error grpc_arg).



Lemma run_callback_shut_down w cb :
  xds_client_ (resolver w) = None → run_callback ServiceConfig_Create w cb = Some w.
Proof.
  intros Hdown. destruct cb; simpl;
    unfold OnListenerChanged, OnError, OnResourceDoesNotExist;
    by rewrite Hdown.
Qed.

Lemma run_callbacks_shut_down w cbs :
  xds_client_ (resolver w) = None → run_callbacks ServiceConfig_Create w cbs = Some w.
Proof.
  intros Hdown. unfold run_callbacks.
  induction cbs as [|cb cbs IH] using rev_ind; [done|].
  rewrite foldl_snoc, IH. simpl. by apply run_callback_shut_down.
Qed.

(** C9 (post-shutdown silence). Once [ShutdownLocked] has run, any
    sequence of watcher callbacks, whether queued before the shutdown or
    invoked later, runs to completion and leaves both the resolver and the
    results received by the result handler exactly as they were. *)
Theorem shutdown_silences_callbacks (r : @XdsResolver grpc_arg)
    (results : list (@Result ServiceConfig grpc_error grpc_arg)) cbs :
  run_callbacks ServiceConfig_Create
    {| resolver := ShutdownLocked r; delivered := results |} cbs
  = Some {| resolver := ShutdownLocked r; delivered := results |}.
Proof. by apply run_callbacks_shut_down. Qed.

(** C8 (empty-resource scenario). On a live resolver, when
    [ServiceConfig::Create] builds a config from the empty document ["{}"]
    and reports no error for it, [OnResourceDoesNotExist] leaves the
    resolver as it is and delivers one result: that config of the empty
    document, with no error. *)
Theorem resource_does_not_exist_delivers_empty_config w xds_client config :
  xds_client_ (resolver w) = Some xds_client →
  ServiceConfig_Create "{}" = (Some config, None) →
  OnResourceDoesNotExist ServiceConfig_Create w =
  Some {| resolver := resolver w;
          delivered :=
            (delivered w ++
             [{| service_config := Some config;
                 service_config_error := None;
                 args := args_ (resolver w) |}])%list |}.
Proof.
  intros Hlive Hcreate. unfold OnResourceDoesNotExist.
  by rewrite Hlive, Hcreate.
Qed.

(** C7 (channel args of a delivered result), as the code has it.  On a
    live resolver [OnError] delivers one result whose args are the base
    args followed by the client's arg.  Whenever [OnListenerChanged]
    delivers, it delivers one result, decided by what
    [CreateServiceConfig] returned: with an error, the result carries
    that error, no service config, and the base args followed by the
    client's arg; with no error, it carries the generated service config
    and the base args followed by the client's arg and then the config
    selector's arg.  Whenever [OnResourceDoesNotExist] delivers, it
    delivers one result with the base args alone. *)
Theorem delivered_args_carry_client_arg w xds_client :
  xds_client_ (resolver w) = Some xds_client →
  let merged :=
    grpc_channel_args_copy_and_add (args_ (resolver w))
      [client_channel_arg xds_client] in
  (∀ error, ∃ result,
     OnError error w = Some (ReturnResult result w) ∧
     args result = merged) ∧
  (∀ listener_data w',
     OnListenerChanged ServiceConfig_Create listener_data w = Some w' →
     ∃ rds index_map config error result,
       rds_update listener_data = Some rds ∧
       CreateServiceConfig ServiceConfig_Create
         (weighted_cluster_index_map_ (resolver w)) rds
         = Some (index_map, (config, error)) ∧
       delivered w' = (delivered w ++ [result])%list ∧
       service_config_error result = error ∧
       match error with
       | Some _ => service_config result = None ∧ args result = merged
       | None =>
           service_config result = config ∧
           args result =
             (merged ++
              [selector_channel_arg (config_selector_ (resolver w))])%list
       end) ∧
  (∀ w',
     OnResourceDoesNotExist ServiceConfig_Create w = Some w' →
     ∃ result,
       delivered w' = (delivered w ++ [result])%list ∧
       args result = args_ (resolver w)).
Proof.
  intros Hlive merged. split; [|split].
  - intros error. unfold OnError. rewrite Hlive. eexists. split; done.
  - intros listener_data w'. unfold OnListenerChanged. rewrite Hlive.
    destruct (rds_update listener_data) as [rds|]; simpl; [|done].
    destruct (CreateServiceConfig _ _ rds) as [[index_map [config error]]|]
      eqn:Hcreate; simpl; [|done].
    destruct error as [e|].
    + unfold OnError. simpl. rewrite Hlive. intros [= <-].
      eexists rds, index_map, config, (Some e), _.
      split; [reflexivity|]. split; [exact Hcreate|].
      repeat split; reflexivity.
    + intros [= <-].
      eexists rds, index_map, config, None, _.
      split; [reflexivity|]. split; [exact Hcreate|]. split; [reflexivity|].
      split; [reflexivity|]. split; [reflexivity|]. simpl.
      unfold merged, grpc_channel_args_copy_and_add.
      by rewrite <-app_assoc.
  - intros w'. unfold OnResourceDoesNotExist. rewrite Hlive.
    destruct (ServiceConfig_Create "{}") as [[config|] error]; [|done].
    intros [= <-]. eexists. split; reflexivity.
Qed.

End ResolverFacts.

(** * The route list of the generated config *)

(** Every route gets one entry, in input order, that refers to its action
    by the kind-prefixed name. *)
Lemma config_loop_route_table index_map rds_update loop :
  config_loop index_map rds_update = Some loop →
  Forall2
    (λ route entry, ∃ action_name,
       route_action_name index_map route = Some action_name ∧
       entry = CreateServiceConfigRoute
                 (StrFormat "%s:%s" [route_action_kind route; action_name])
                 route)
    (routes rds_update) (route_table loop).
Proof.
  unfold config_loop. generalize (routes rds_update). intros l. revert loop.
  induction l as [|route l IH] using rev_ind; intros loop.
  { simpl. intros [= <-]. constructor. }
  rewrite foldl_snoc. unfold config_loop_step at 1.
  destruct (foldl _ _ l) as [acc|]; simpl; [|done].
  destruct (route_action_name index_map route) as [action_name|] eqn:Hname;
    simpl; [|done].
  intros [= <-]. cbn [route_table]. apply Forall2_app; [by apply IH|].
  constructor; [|constructor]. by exists action_name.
Qed.

(** * Key collisions *)

Lemma actions_to_process_Some update wk nk :
  actions_to_process update !! wk = Some nk →
  ∃ route, route ∈ routes update ∧ weighted_clusters route ≠ [] ∧
           GetWeightedClustersKey (weighted_clusters route) =
             {| cluster_names_key := nk; cluster_weights_key := wk |}.
Proof.
  unfold actions_to_process.
  induction (routes update) as [|route l IH] using rev_ind.
  { simpl. by rewrite lookup_empty. }
  rewrite foldl_snoc. unfold add_action at 1.
  assert (∀ r, r ∈ l → r ∈ (l ++ [route])%list) as Hl
    by (intros r ?; apply elem_of_app; by left).
  case_decide as Hw.
  { intros (r & ? & ?)%IH. exists r. split; [by apply Hl|done]. }
  destruct (foldl add_action ∅ l
              !! cluster_weights_key
                   (GetWeightedClustersKey (weighted_clusters route))) eqn:Hk.
  { intros (r & ? & ?)%IH. exists r. split; [by apply Hl|done]. }
  rewrite lookup_insert_Some. intros [[<- <-]|[_ (r & ? & ?)%IH]].
  - exists route. split; [apply elem_of_app; right; left|].
    split; [done|]. by destruct (GetWeightedClustersKey _).
  - exists r. split; [by apply Hl|done].
Qed.

Lemma actions_to_process_is_Some update route :
  route ∈ routes update → weighted_clusters route ≠ [] →
  is_Some (actions_to_process update
             !! cluster_weights_key
                  (GetWeightedClustersKey (weighted_clusters route))).
Proof.
  unfold actions_to_process.
  induction (routes update) as [|r l IH] using rev_ind.
  { by intros ?%elem_of_nil. }
  rewrite foldl_snoc. intros [Hin| ->%list_elem_of_singleton]%elem_of_app Hw.
  - destruct (IH Hin Hw) as [nk Hnk]. unfold add_action at 1.
    case_decide; [by eexists|].
    destruct (foldl add_action ∅ l
                !! cluster_weights_key
                     (GetWeightedClustersKey (weighted_clusters r))) eqn:Hk;
      [by eexists|].
    rewrite lookup_insert_is_Some. right. split; [congruence|].
    rewrite Hnk. by eexists.
  - unfold add_action at 1. rewrite decide_False by done.
    destruct (foldl add_action ∅ l
                !! cluster_weights_key
                     (GetWeightedClustersKey (weighted_clusters r))) eqn:Hk;
      [by rewrite Hk|].
    rewrite lookup_insert_eq. by eexists.
Qed.

(** No two weighted routes of the update share a [cluster_weights_key]
    under different [cluster_names_key]s. *)
Definition keys_consistent (update : RdsUpdate) : Prop :=
  ∀ r1 r2, r1 ∈ routes update → r2 ∈ routes update →
    weighted_clusters r1 ≠ [] → weighted_clusters r2 ≠ [] →
    cluster_weights_key (GetWeightedClustersKey (weighted_clusters r1)) =
    cluster_weights_key (GetWeightedClustersKey (weighted_clusters r2)) →
    cluster_names_key (GetWeightedClustersKey (weighted_clusters r1)) =
    cluster_names_key (GetWeightedClustersKey (weighted_clusters r2)).

(** Without such a collision both lookups of [WeightedClustersActionName]
    succeed for every weighted route of the update. *)
Lemma WeightedClustersActionName_is_Some table update route :
  keys_consistent update →
  route ∈ routes update → weighted_clusters route ≠ [] →
  is_Some (WeightedClustersActionName
             (UpdateWeightedClusterIndexMap table update)
             (weighted_clusters route)).
Proof.
  intros Hcons Hin Hw.
  destruct (actions_to_process_is_Some update route Hin Hw) as [nk Hnk].
  destruct (actions_to_process_Some _ _ _ Hnk) as (r & Hr & Hrw & Hkeys).
  assert (nk = cluster_names_key
                 (GetWeightedClustersKey (weighted_clusters route))) as ->.
  { rewrite <-(Hcons r route Hr Hin Hrw Hw); by rewrite Hkeys. }
  unfold WeightedClustersActionName, UpdateWeightedClusterIndexMap.
  destruct (allocate_is_Some table (actions_to_process update)
              (cluster_names_key
                 (GetWeightedClustersKey (weighted_clusters route))))
    as [_ [info Hinfo]]; [by eexists|].
  rewrite Hinfo.
  destruct (allocate_weights_dom _ _ _ _
              (cluster_weights_key
                 (GetWeightedClustersKey (weighted_clusters route))) Hinfo)
    as [_ [index Hindex]]; [done|].
  rewrite Hindex. by eexists.
Qed.

(** ** When two updates request the same actions *)

(** The weighted-cluster actions of an update, in route order. *)
Definition weighted_actions (update : RdsUpdate) : list (list ClusterWeight) :=
  filter (λ clusters, clusters ≠ []) (weighted_clusters <$> routes update).

Definition add_keys (acts : gmap string string)
    (clusters : list ClusterWeight) : gmap string string :=
  let keys := GetWeightedClustersKey clusters in
  match acts !! cluster_weights_key keys with
  | None => <[cluster_weights_key keys := cluster_names_key keys]> acts
  | Some _ => acts
  end.

Lemma actions_to_process_weighted_actions update :
  actions_to_process update = foldl add_keys ∅ (weighted_actions update).
Proof.
  unfold actions_to_process, weighted_actions.
  induction (routes update) as [|route l IH] using rev_ind; [done|].
  rewrite fmap_app, filter_app, !foldl_app, <-IH. cbn [fmap list_fmap].
  rewrite filter_cons, filter_nil. cbn [foldl]. unfold add_action.
  destruct (decide (weighted_clusters route = [])) as [Hw|Hw].
  - by rewrite decide_False by (by intros ?).
  - by rewrite decide_True.
Qed.

(** Two updates whose weighted routes carry the same cluster lists in the
    same order request the same actions, whatever their other routes and
    their matchers are. *)
Lemma same_weighted_actions_same_actions update1 update2 :
  weighted_actions update1 = weighted_actions update2 →
  actions_to_process update1 = actions_to_process update2.
Proof. intros H. by rewrite !actions_to_process_weighted_actions, H. Qed.

Lemma actions_to_process_consistent update wk nk :
  keys_consistent update →
  actions_to_process update !! wk = Some nk ↔
  ∃ route, route ∈ routes update ∧ weighted_clusters route ≠ [] ∧
           GetWeightedClustersKey (weighted_clusters route) =
             {| cluster_names_key := nk; cluster_weights_key := wk |}.
Proof.
  intros Hcons. split; [apply actions_to_process_Some|].
  intros (route & Hin & Hw & Hkeys).
  destruct (actions_to_process_is_Some update route Hin Hw) as [nk' Hnk'].
  rewrite Hkeys in Hnk'. cbn in Hnk'. rewrite Hnk'. f_equal.
  destruct (actions_to_process_Some _ _ _ Hnk') as (r & Hr & Hrw & Hrkeys).
  pose proof (Hcons r route Hr Hin Hrw Hw) as Heq.
  rewrite Hkeys, Hrkeys in Heq. by apply Heq.
Qed.

(** Without key collisions the order and the multiplicity of the weighted
    routes do not matter either: the same set of cluster lists requests
    the same actions. *)
Lemma same_weighted_sets_same_actions update1 update2 :
  keys_consistent update1 →
  (∀ clusters, clusters ≠ [] →
     clusters ∈ weighted_clusters <$> routes update1 ↔
     clusters ∈ weighted_clusters <$> routes update2) →
  actions_to_process update1 = actions_to_process update2.
Proof.
  intros Hcons1 Hsame.
  assert (∀ u u' r, r ∈ routes u → weighted_clusters r ≠ [] →
            (∀ clusters, clusters ≠ [] →
               clusters ∈ weighted_clusters <$> routes u →
               clusters ∈ weighted_clusters <$> routes u') →
            ∃ r', r' ∈ routes u' ∧
                  weighted_clusters r' = weighted_clusters r) as Hmove.
  { intros u u' r Hr Hw Hsub.
    destruct (list_elem_of_fmap_1 weighted_clusters (routes u')
                (weighted_clusters r)) as (r' & Heq & Hr').
    - apply Hsub; [done|]. by apply list_elem_of_fmap_2.
    - by exists r'. }
  assert (keys_consistent update2) as Hcons2.
  { intros r1 r2 Hr1 Hr2 Hw1 Hw2.
    destruct (Hmove update2 update1 r1 Hr1 Hw1) as (r1' & Hr1' & Heq1);
      [intros ??; by apply Hsame|].
    destruct (Hmove update2 update1 r2 Hr2 Hw2) as (r2' & Hr2' & Heq2);
      [intros ??; by apply Hsame|].
    rewrite <-Heq1, <-Heq2. apply Hcons1; congruence. }
  apply map_eq. intros wk. apply option_eq. intros nk.
  rewrite !actions_to_process_consistent by done.
  split; intros (r & Hr & Hw & Hkeys).
  - destruct (Hmove update1 update2 r Hr Hw) as (r' & Hr' & Heq);
      [intros ??; by apply Hsame|].
    exists r'. rewrite Heq. done.
  - destruct (Hmove update2 update1 r Hr Hw) as (r' & Hr' & Heq);
      [intros ??; by apply Hsame|].
    exists r'. rewrite Heq. done.
Qed.

(** * Concrete resolvers *)

Module ResolverExamples.

(** A document builder that accepts every text: the service config is
    the text itself. *)
Definition accept_all (json : string) : option string * option string :=
  (Some json, None).

Definition live_resolver : @XdsResolver string :=
  {| server_name_ := "server.example.com";
     args_ := ["base_arg"];
     xds_client_ := Some {| client_channel_arg := "xds_client_arg" |};
     config_selector_ := {| selector_channel_arg := "config_selector_arg" |};
     weighted_cluster_index_map_ := ∅ |}.

Definition live : @Resolving string string string :=
  {| resolver := live_resolver; delivered := [] |}.

(** A single-cluster route to the cluster ["x_y_0"], followed by a
    weighted route over [x] and [y], which the empty table names
    ["x_y_0"] too. *)
Definition cluster_x_y_0 : RdsRoute := Examples.to_cluster "/a" "x_y_0".
Definition same_name : RdsUpdate :=
  {| routes := [cluster_x_y_0; Examples.xy_50_50] |}.

End ResolverExamples.

(** C6 fails on the input [same_name]: the single-cluster route and the
    weighted route have the same action name ["x_y_0"], the weighted
    route finds the name in [actions_set] already, and no
    ["weighted:x_y_0"] action is written although the second route entry
    refers to it. *)
Theorem same_name_drops_weighted_action :
  config_loop
    (UpdateWeightedClusterIndexMap ∅ ResolverExamples.same_name)
    ResolverExamples.same_name =
  Some {| actions_vector := [CreateServiceConfigActionCluster "x_y_0"];
          route_table :=
            [CreateServiceConfigRoute "cds:x_y_0"
               ResolverExamples.cluster_x_y_0;
             CreateServiceConfigRoute "weighted:x_y_0" Examples.xy_50_50];
          actions_set := {["x_y_0"]} |}.
Proof. vm_compute. reflexivity. Qed.

(** C10 fails on the input [colliding]: the second route's
    [cluster_weights_key] is taken by the first route under another
    [cluster_names_key], its bucket ["a_b"] is never created, and the
    first [GPR_ASSERT] of [WeightedClustersActionName] fails. *)
Theorem colliding_keys_reach_assert :
  UpdateWeightedClusterIndexMap ∅ Examples.colliding =
    {[ "a_1_b" := {| next_index := 1;
                     cluster_weights_map := {[ "a_1_b_2" := 0%N ]} |} ]} ∧
  WeightedClustersActionName
    (UpdateWeightedClusterIndexMap ∅ Examples.colliding)
    (Examples.clusters [("a", 1%N); ("b", 2%N)]) = None ∧
  config_loop (UpdateWeightedClusterIndexMap ∅ Examples.colliding)
    Examples.colliding = None.
Proof. repeat split; vm_compute; reflexivity. Qed.

(** C7 as stated fails.  The base args merged with the client's arg are
    [base_arg; xds_client_arg]; the result of [OnResourceDoesNotExist]
    carries the base args alone, and the result of a successful
    [OnListenerChanged] carries the config selector's arg as well. *)
Lemma delivered_args_counterexample :
  grpc_channel_args_copy_and_add (args_ ResolverExamples.live_resolver)
    ["xds_client_arg"] = ["base_arg"; "xds_client_arg"] ∧
  OnResourceDoesNotExist ResolverExamples.accept_all ResolverExamples.live =
    Some {| resolver := ResolverExamples.live_resolver;
            delivered :=
              [{| service_config := Some "{}";
                  service_config_error := None;
                  args := ["base_arg"] |}] |} ∧
  (λ w, args <$> delivered w) <$>
    OnListenerChanged ResolverExamples.accept_all
      {| rds_update := Some Examples.no_weighted |} ResolverExamples.live =
    Some [["base_arg"; "xds_client_arg"; "config_selector_arg"]].
Proof. repeat split; vm_compute; reflexivity. Qed.

Lemma delivered_args_carry_client_arg_witness :
  let w := ResolverExamples.live in
  let merged := ["base_arg"; "xds_client_arg"] in
  (∀ error : option string, ∃ result,
     OnError error w = Some (ReturnResult result w) ∧
     args result = merged) ∧
  (∀ listener_data w',
     OnListenerChanged ResolverExamples.accept_all listener_data w = Some w' →
     ∃ rds index_map config error result,
       rds_update listener_data = Some rds ∧
       CreateServiceConfig ResolverExamples.accept_all
         (weighted_cluster_index_map_ (resolver w)) rds
         = Some (index_map, (config, error)) ∧
       delivered w' = (delivered w ++ [result])%list ∧
       service_config_error result = error ∧
       match error with
       | Some _ => service_config result = None ∧ args result = merged
       | None =>
           service_config result = config ∧
           args result = (merged ++ ["config_selector_arg"])%list
       end) ∧
  (∀ w',
     OnResourceDoesNotExist ResolverExamples.accept_all w = Some w' →
     ∃ result,
       delivered w' = (delivered w ++ [result])%list ∧
       args result = ["base_arg"]).
Proof.
  apply (delivered_args_carry_client_arg ResolverExamples.accept_all
           ResolverExamples.live {| client_channel_arg := "xds_client_arg" |}).
  reflexivity.
Defined.

Lemma resource_does_not_exist_witness :
  OnResourceDoesNotExist ResolverExamples.accept_all ResolverExamples.live =
  Some {| resolver := ResolverExamples.live_resolver;
          delivered :=
            [{| service_config := Some "{}";
                service_config_error := None;
                args := ["base_arg"] |}] |}.
Proof.
  apply (resource_does_not_exist_delivers_empty_config
           ResolverExamples.accept_all ResolverExamples.live
           {| client_channel_arg := "xds_client_arg" |} "{}");
    reflexivity.
Defined.

(** * More about the cache keys *)

(** [GetWeightedClustersKey] goes through two [std::set]s: the keys do not
    depend on the order of the clusters of a route, nor on how often a
    cluster is repeated. *)
Theorem GetWeightedClustersKey_same_elements
    (clusters1 clusters2 : list ClusterWeight) :
  (∀ cluster_weight,
     cluster_weight ∈ clusters1 ↔ cluster_weight ∈ clusters2) →
  GetWeightedClustersKey clusters1 = GetWeightedClustersKey clusters2.
Proof.
  intros Hsame. unfold GetWeightedClustersKey.
  assert (∀ f : ClusterWeight → string,
            list_to_set (f <$> clusters1) =@{gset string}
            list_to_set (f <$> clusters2)) as Hset.
  { intros f. apply set_eq. intros x.
    rewrite !elem_of_list_to_set, !list_elem_of_fmap. naive_solver. }
  by rewrite !Hset.
Qed.

Lemma GetWeightedClustersKey_same_elements_witness :
  GetWeightedClustersKey
    (Examples.clusters [("y", 90%N); ("x", 10%N); ("y", 90%N)]) =
  GetWeightedClustersKey (Examples.clusters [("x", 10%N); ("y", 90%N)]).
Proof.
  apply GetWeightedClustersKey_same_elements. intros cluster_weight.
  unfold Examples.clusters. cbn [fmap list_fmap fst snd].
  rewrite !elem_of_cons, !elem_of_nil. naive_solver.
Defined.

(** The names key is the bucket of an action: routes over the same set of
    cluster names share it, whatever their weights are. *)
Theorem cluster_names_key_same_names
    (clusters1 clusters2 : list ClusterWeight) :
  (∀ cluster, cluster ∈ name <$> clusters1 ↔ cluster ∈ name <$> clusters2) →
  cluster_names_key (GetWeightedClustersKey clusters1) =
  cluster_names_key (GetWeightedClustersKey clusters2).
Proof.
  intros Hsame. unfold GetWeightedClustersKey. cbn [cluster_names_key].
  assert (list_to_set ((λ cw, StrFormat "%s" [name cw]) <$> clusters1)
          =@{gset string}
          list_to_set ((λ cw, StrFormat "%s" [name cw]) <$> clusters2)) as ->;
    [|done].
  apply set_eq. intros x. rewrite !elem_of_list_to_set, !list_elem_of_fmap.
  split; intros (cw & -> & Hcw).
  - assert (name cw ∈ name <$> clusters2)
      as (cw' & Hname & Hcw')%list_elem_of_fmap
      by (apply Hsame, list_elem_of_fmap; by exists cw).
    exists cw'. by rewrite Hname.
  - assert (name cw ∈ name <$> clusters1)
      as (cw' & Hname & Hcw')%list_elem_of_fmap
      by (apply Hsame, list_elem_of_fmap; by exists cw).
    exists cw'. by rewrite Hname.
Qed.

Lemma cluster_names_key_same_names_witness :
  cluster_names_key
    (GetWeightedClustersKey (Examples.clusters [("y", 90%N); ("x", 10%N)])) =
  cluster_names_key
    (GetWeightedClustersKey (Examples.clusters [("x", 50%N); ("y", 50%N)])).
Proof.
  apply cluster_names_key_same_names. intros cluster.
  unfold Examples.clusters. cbn [fmap list_fmap fst snd name].
  rewrite !elem_of_cons, !elem_of_nil. naive_solver.
Defined.

(** * More about [UpdateWeightedClusterIndexMap] *)

Lemma sorted_keys_unique (l1 l2 : list string) :
  StronglySorted String.le l1 → StronglySorted String.le l2 →
  NoDup l1 → NoDup l2 → (∀ x, x ∈ l1 ↔ x ∈ l2) → l1 = l2.
Proof.
  intros Hs1 Hs2 Hn1 Hn2 Hsame.
  apply (StronglySorted_unique String.le); [done..|].
  by apply NoDup_Permutation.
Qed.

Lemma actions_to_process_no_weighted update :
  (∀ route, route ∈ routes update → weighted_clusters route = []) →
  actions_to_process update = ∅.
Proof.
  unfold actions_to_process.
  induction (routes update) as [|route l IH] using rev_ind; intros Hall;
    [done|].
  rewrite foldl_snoc, IH.
  - unfold add_action. rewrite decide_True; [done|].
    apply Hall, elem_of_app. right. left.
  - intros r Hr. apply Hall, elem_of_app. by left.
Qed.

(** An update without weighted-cluster routes clears the cache, whatever
    it held. *)
Theorem update_without_weighted_routes_clears table update :
  (∀ route, route ∈ routes update → weighted_clusters route = []) →
  UpdateWeightedClusterIndexMap table update = ∅.
Proof.
  intros Hall. unfold UpdateWeightedClusterIndexMap.
  rewrite actions_to_process_no_weighted by done.
  apply map_eq. intros nk. rewrite lookup_empty.
  apply eq_None_not_Some. rewrite allocate_is_Some.
  intros [wk Hwk]. by rewrite lookup_empty in Hwk.
Qed.

Lemma update_without_weighted_routes_clears_witness :
  UpdateWeightedClusterIndexMap Examples.two_actions Examples.no_weighted = ∅.
Proof.
  apply update_without_weighted_routes_clears.
  intros route ->%list_elem_of_singleton. reflexivity.
Defined.

(** Garbage collection: no bucket of the updated map is empty, and every
    entry of the updated map is the action of a weighted route of this
    update. *)
Theorem updated_map_entries_in_use table update nk info :
  UpdateWeightedClusterIndexMap table update !! nk = Some info →
  cluster_weights_map info ≠ ∅ ∧
  ∀ wk, is_Some (cluster_weights_map info !! wk) →
    ∃ route, route ∈ routes update ∧ weighted_clusters route ≠ [] ∧
             GetWeightedClustersKey (weighted_clusters route) =
               {| cluster_names_key := nk; cluster_weights_key := wk |}.
Proof.
  unfold UpdateWeightedClusterIndexMap. intros Hinfo. split.
  - destruct (allocate_is_Some table (actions_to_process update) nk)
      as [[wk Hwk] _]; [by eexists|].
    destruct (allocate_weights_dom _ _ _ _ wk Hinfo) as [_ [i Hi]]; [done|].
    intros Hempty. by rewrite Hempty, lookup_empty in Hi.
  - intros wk Hwk. apply actions_to_process_Some.
    by apply (allocate_weights_dom _ _ _ _ wk Hinfo).
Qed.

Lemma updated_map_entries_in_use_witness :
  let info := {| next_index := 2;
                 cluster_weights_map := {[ "x_50_y_50" := 0%N ]} |} in
  cluster_weights_map info ≠ ∅ ∧
  ∀ wk, is_Some (cluster_weights_map info !! wk) →
    ∃ route, route ∈ routes Examples.only_xy_50_50 ∧
             weighted_clusters route ≠ [] ∧
             GetWeightedClustersKey (weighted_clusters route) =
               {| cluster_names_key := "x_y"; cluster_weights_key := wk |}.
Proof.
  apply (updated_map_entries_in_use Examples.two_actions
           Examples.only_xy_50_50 "x_y").
  vm_compute. reflexivity.
Defined.

Lemma allocate_retains_index table acts nk info wk index :
  table !! nk = Some info →
  cluster_weights_map info !! wk = Some index →
  acts !! wk = Some nk →
  ∃ info', allocate table acts !! nk = Some info' ∧
           cluster_weights_map info' !! wk = Some index.
Proof.
  intros Ht Hindex Hwk.
  destruct (allocate_is_Some table acts nk) as [_ [info' Hinfo']];
    [by eexists|].
  exists info'. split; [done|].
  rewrite allocate_lookup in Hinfo'.
  assert (cluster_weights_map info' =
          new_weights
            (foldl second_pass_bucket
               (foldl first_pass_bucket (table !! nk, None)
                  (bucket_keys nk (sorted_items acts)))
               (bucket_keys nk (sorted_items (unsettled table acts))))) as ->.
  { unfold new_weights. by rewrite Hinfo'. }
  rewrite foldl_second_pass_bucket_other.
  - rewrite first_pass_bucket_new_weights, decide_True, Ht by done. done.
  - rewrite elem_of_unsettled_keys, exact_match_alt. intros [_ Hno].
    apply Hno. eauto.
Qed.

(** Stable names: an action that is in the map and that the update
    requests again keeps its name. *)
Theorem retained_action_keeps_name table update weighted_clusters action_name :
  let keys := GetWeightedClustersKey weighted_clusters in
  WeightedClustersActionName table weighted_clusters = Some action_name →
  actions_to_process update !! cluster_weights_key keys
    = Some (cluster_names_key keys) →
  WeightedClustersActionName
    (UpdateWeightedClusterIndexMap table update) weighted_clusters
    = Some action_name.
Proof.
  intros keys. unfold WeightedClustersActionName. fold keys.
  destruct (table !! cluster_names_key keys) as [info|] eqn:Ht; [|done].
  destruct (cluster_weights_map info !! cluster_weights_key keys)
    as [index|] eqn:Hindex; [|done].
  intros Hname Hwk. unfold UpdateWeightedClusterIndexMap.
  destruct (allocate_retains_index _ _ _ _ _ _ Ht Hindex Hwk)
    as (info' & -> & ->).
  done.
Qed.

Lemma retained_action_keeps_name_witness :
  WeightedClustersActionName
    (UpdateWeightedClusterIndexMap Examples.two_actions
       {| routes := [Examples.xy_50_50; Examples.xy_20_80] |})
    (Examples.clusters [("y", 80%N); ("x", 20%N)])
    = Some "x_y_1".
Proof.
  apply retained_action_keeps_name; vm_compute; reflexivity.
Defined.

(** Growth: when the update requests every entry of a bucket again and
    exactly one action more, the new action takes the bucket's
    [next_index], which is then incremented (on [uint64_t]); the other
    entries are as before. *)
Theorem new_action_takes_next_index table update S info wkB :
  let acts := actions_to_process update in
  table !! S = Some info →
  (∀ wk, is_Some (cluster_weights_map info !! wk) → acts !! wk = Some S) →
  acts !! wkB = Some S →
  cluster_weights_map info !! wkB = None →
  (∀ wk, acts !! wk = Some S → wk ≠ wkB →
         is_Some (cluster_weights_map info !! wk)) →
  UpdateWeightedClusterIndexMap table update !! S =
  Some {| next_index := uint64_succ (next_index info);
          cluster_weights_map :=
            <[wkB := next_index info]> (cluster_weights_map info) |}.
Proof.
  intros acts Ht Hall HB Hnew Hone.
  unfold UpdateWeightedClusterIndexMap. fold acts.
  rewrite allocate_lookup, Ht, foldl_first_pass_bucket_Some.
  assert (wkB ∈ bucket_keys S (sorted_items acts)) as HBws
    by by apply elem_of_bucket_keys.
  assert (∀ k, is_Some (cluster_weights_map info !! k) →
               k ∈ bucket_keys S (sorted_items acts)) as Hws
    by (intros k ?; by apply elem_of_bucket_keys, Hall).
  rewrite decide_False by (apply list_nonempty_elem_of; eauto).
  assert (bucket_keys S (sorted_items (unsettled table acts)) = [wkB]) as ->.
  { apply NoDup_elem_of_singleton; [apply NoDup_bucket_keys|].
    intros wk. rewrite elem_of_unsettled_keys, exact_match_alt. split.
    - intros [Hwk Hno]. destruct (decide (wk = wkB)) as [|Hne]; [done|].
      destruct (Hone wk Hwk Hne) as [index Hindex].
      destruct Hno. eauto.
    - intros ->. split; [done|]. intros (?&?&?&?). congruence. }
  generalize dependent (bucket_keys S (sorted_items acts)). intros ws _ Hws.
  assert (filter (λ p, p.1 ∉ ws) (cluster_weights_map info) = ∅) as Hleft.
  { apply map_empty_filter. intros k v Hk Hnin. apply Hnin, Hws. by eexists. }
  assert (filter (λ p, p.1 ∈ ws) (cluster_weights_map info)
          = cluster_weights_map info) as Hcarried.
  { apply map_filter_id. intros k v Hk. apply Hws. by eexists. }
  cbn [foldl]. unfold second_pass_bucket, left_over, carried_over, set_weights.
  cbn [fst snd default from_option id next_index cluster_weights_map].
  rewrite Hleft, Hcarried.
  assert (map_begin (∅ : gmap string N) = None) as ->
    by by apply map_begin_None.
  done.
Qed.

Lemma new_action_takes_next_index_witness :
  let info := {| next_index := 1;
                 cluster_weights_map := {[ "x_10_y_90" := 0%N ]} |} in
  UpdateWeightedClusterIndexMap Examples.one_action
    {| routes := [Examples.xy_10_90; Examples.xy_50_50] |} !! "x_y" =
  Some {| next_index := uint64_succ (next_index info);
          cluster_weights_map :=
            <["x_50_y_50" := next_index info]> (cluster_weights_map info) |}.
Proof.
  intros info.
  assert (actions_to_process
            {| routes := [Examples.xy_10_90; Examples.xy_50_50] |}
          = {[ "x_10_y_90" := "x_y"; "x_50_y_50" := "x_y" ]}) as Hacts
    by (vm_compute; reflexivity).
  pose proof (new_action_takes_next_index Examples.one_action
                {| routes := [Examples.xy_10_90; Examples.xy_50_50] |} "x_y"
                info "x_50_y_50") as Hgrow.
  apply Hgrow; clear Hgrow.
  - vm_compute; reflexivity.
  - cbn [cluster_weights_map info]. rewrite Hacts.
    intros wk [index [<- _]%lookup_singleton_Some]. vm_compute; reflexivity.
  - vm_compute; reflexivity.
  - vm_compute; reflexivity.
  - cbn [cluster_weights_map info]. rewrite Hacts. intros wk Hwk Hne.
    apply lookup_insert_Some in Hwk as [[<- _]|[_ Hwk]].
    + rewrite lookup_singleton_eq. by eexists.
    + apply lookup_singleton_Some in Hwk as [<- _]. by destruct Hne.
Defined.

(** No cross-bucket leakage: what an update leaves under a names key is
    determined by what the map held under that key and by the actions the
    update requests for that key. *)
Theorem bucket_depends_on_own_key_only table1 table2 update1 update2 nk :
  table1 !! nk = table2 !! nk →
  (∀ wk, actions_to_process update1 !! wk = Some nk ↔
         actions_to_process update2 !! wk = Some nk) →
  UpdateWeightedClusterIndexMap table1 update1 !! nk =
  UpdateWeightedClusterIndexMap table2 update2 !! nk.
Proof.
  intros Ht Hacts. unfold UpdateWeightedClusterIndexMap.
  rewrite !allocate_lookup, Ht.
  assert (bucket_keys nk (sorted_items (actions_to_process update1)) =
          bucket_keys nk (sorted_items (actions_to_process update2))) as ->.
  { apply sorted_keys_unique;
      [apply bucket_keys_sorted|apply bucket_keys_sorted|
       apply NoDup_bucket_keys|apply NoDup_bucket_keys|].
    intros wk. by rewrite !elem_of_bucket_keys. }
  assert (bucket_keys nk
            (sorted_items (unsettled table1 (actions_to_process update1))) =
          bucket_keys nk
            (sorted_items (unsettled table2 (actions_to_process update2))))
    as ->; [|done].
  apply sorted_keys_unique;
    [apply bucket_keys_sorted|apply bucket_keys_sorted|
     apply NoDup_bucket_keys|apply NoDup_bucket_keys|].
  intros wk. rewrite !elem_of_unsettled_keys. unfold exact_match.
  by rewrite Ht, Hacts.
Qed.

Lemma bucket_depends_on_own_key_only_witness :
  UpdateWeightedClusterIndexMap Examples.two_actions
    {| routes := [Examples.xy_50_50] |} !! "x_y" =
  UpdateWeightedClusterIndexMap
    (<["x_z" := {| next_index := 7;
                   cluster_weights_map := {[ "x_1_z_1" := 6%N ]} |}]>
       Examples.two_actions)
    {| routes := [Examples.to_weighted "/z" [("x", 1%N); ("z", 2%N)];
                  Examples.xy_50_50] |} !! "x_y".
Proof.
  apply bucket_depends_on_own_key_only.
  - vm_compute; reflexivity.
  - assert (actions_to_process {| routes := [Examples.xy_50_50] |}
            = {[ "x_50_y_50" := "x_y" ]}) as ->
      by (vm_compute; reflexivity).
    assert (actions_to_process
              {| routes := [Examples.to_weighted "/z"
                              [("x", 1%N); ("z", 2%N)];
                            Examples.xy_50_50] |}
            = {[ "x_1_z_2" := "x_z"; "x_50_y_50" := "x_y" ]}) as ->
      by (vm_compute; reflexivity).
    intros wk. rewrite lookup_insert_Some, !lookup_singleton_Some.
    split; [naive_solver|].
    intros [[_ [=]]|[_ ?]]. done.
Defined.

(** Without key collisions the updated map does not depend on the order
    of the routes, on repeated routes, or on the routes to single
    clusters. *)
Theorem route_order_is_irrelevant table update1 update2 :
  keys_consistent update1 →
  (∀ clusters, clusters ≠ [] →
     clusters ∈ weighted_clusters <$> routes update1 ↔
     clusters ∈ weighted_clusters <$> routes update2) →
  UpdateWeightedClusterIndexMap table update1 =
  UpdateWeightedClusterIndexMap table update2.
Proof.
  intros Hcons Hsame. unfold UpdateWeightedClusterIndexMap.
  by rewrite (same_weighted_sets_same_actions update1 update2).
Qed.

Lemma route_order_is_irrelevant_witness :
  UpdateWeightedClusterIndexMap Examples.one_action
    {| routes := [Examples.xy_10_90; Examples.xy_20_80] |} =
  UpdateWeightedClusterIndexMap Examples.one_action
    {| routes := [Examples.xy_20_80; Examples.to_cluster "/e" "z";
                  Examples.xy_10_90; Examples.xy_20_80] |}.
Proof.
  apply route_order_is_irrelevant.
  - intros r1 r2 Hr1 Hr2 _ _.
    apply elem_of_cons in Hr1 as [->| ->%list_elem_of_singleton];
      apply elem_of_cons in Hr2 as [->| ->%list_elem_of_singleton];
      vm_compute; done.
  - intros clusters Hne. cbn [routes fmap list_fmap].
    rewrite !elem_of_cons, !elem_of_nil.
    split.
    + intros [->|[->|[]]]; [right; right; by left|by left].
    + intros [->|[->|[->|[->|[]]]]];
        [right; by left|by destruct Hne|by left|right; by left].
Defined.

(** * Allocation in a bucket seen for the first time *)

(** First use of a cluster set: when the map has no bucket for a names
    key, the actions the update requests for it are numbered 0, 1, 2, ...
    in ascending order of their weights keys, and [next_index] is their
    number.  [ws] is that ascending list of weights keys. *)
Theorem fresh_bucket_counts_from_zero table update nk ws :
  table !! nk = None →
  StronglySorted String.le ws → NoDup ws →
  (∀ wk, wk ∈ ws ↔ actions_to_process update !! wk = Some nk) →
  ws ≠ [] →
  (N.of_nat (length ws) < 2 ^ 64)%N →
  ∃ info,
    UpdateWeightedClusterIndexMap table update !! nk = Some info ∧
    next_index info = N.of_nat (length ws) ∧
    ∀ i wk, ws !! i = Some wk →
      cluster_weights_map info !! wk = Some (N.of_nat i).
Proof.
  intros Ht Hsorted Hnd Hws Hne Hsmall.
  unfold UpdateWeightedClusterIndexMap.
  destruct (allocate_is_Some table (actions_to_process update) nk)
    as [_ [info Hinfo]].
  { apply list_nonempty_elem_of in Hne as [wk Hwk]. exists wk.
    by apply Hws. }
  exists info. split; [done|].
  rewrite allocate_lookup, Ht, foldl_first_pass_bucket_None in Hinfo.
  assert (bucket_keys nk
            (sorted_items (unsettled table (actions_to_process update)))
          = ws) as Heq.
  { apply sorted_keys_unique;
      [apply bucket_keys_sorted|done|apply NoDup_bucket_keys|done|].
    intros wk. rewrite elem_of_unsettled_keys, Hws, exact_match_alt.
    split; [by intros [??]|]. intros Hwk. split; [done|].
    intros (?&?&?&?). congruence. }
  rewrite Heq in Hinfo.
  destruct (foldl_second_pass_bucket_fresh ws (None, None))
    as [Hnext Hlookup]; [done|done|done|].
  unfold new_next_index, new_weights in Hnext, Hlookup.
  rewrite Hinfo in Hnext, Hlookup. cbn in Hnext, Hlookup.
  split; [done|]. intros i wk Hi. by rewrite (Hlookup i wk Hi).
Qed.

Lemma fresh_bucket_counts_from_zero_witness :
  ∃ info,
    UpdateWeightedClusterIndexMap ∅ Examples.both_xy !! "x_y" = Some info ∧
    next_index info = 2%N ∧
    ∀ i wk, ["x_10_y_90"; "x_20_y_80"] !! i = Some wk →
      cluster_weights_map info !! wk = Some (N.of_nat i).
Proof.
  assert (actions_to_process Examples.both_xy
          = {[ "x_10_y_90" := "x_y"; "x_20_y_80" := "x_y" ]}) as Hacts
    by (vm_compute; reflexivity).
  apply (fresh_bucket_counts_from_zero ∅ Examples.both_xy "x_y"
           ["x_10_y_90"; "x_20_y_80"]).
  - apply lookup_empty.
  - repeat constructor.
  - apply NoDup_cons. split; [|apply NoDup_singleton].
    by intros [=]%list_elem_of_singleton.
  - intros wk. rewrite Hacts, lookup_insert_Some, lookup_singleton_Some.
    rewrite elem_of_cons, list_elem_of_singleton. split.
    + intros [->| ->].
      * left. split; reflexivity.
      * right. split; [discriminate|]. split; reflexivity.
    + intros [[<- _]|[_ [<- _]]]; [by left|by right].
  - done.
  - vm_compute; reflexivity.
Defined.

(** * Names in a map built by updates *)

Lemma string_app_empty_r (s : string) : s +:+ "" = s.
Proof.
  induction s as [|c s IH]; [done|].
  change (String c (s +:+ "") = String c s). by rewrite IH.
Qed.

Lemma StrFormat_name_index (names_key index : string) :
  StrFormat "%s_%d" [names_key; index] = names_key +:+ "_" +:+ index.
Proof. cbv -[String.append]. by rewrite string_app_empty_r. Qed.

(** In a map built from the empty one by fewer than [2 ^ 64] routes, every
    index of a bucket is below the bucket's [next_index], which is at most
    the number of routes received. *)
Theorem indices_below_next_index us nk info wk index :
  (N.of_nat (total_routes us) < 2 ^ 64)%N →
  run_updates ∅ us !! nk = Some info →
  cluster_weights_map info !! wk = Some index →
  (index < next_index info)%N ∧
  (next_index info ≤ N.of_nat (total_routes us))%N.
Proof.
  intros Hsmall Hinfo Hindex.
  destruct (run_updates_wf us Hsmall nk info Hinfo) as [[_ Hbelow] Hbound].
  split; [by eapply Hbelow|done].
Qed.

Lemma indices_below_next_index_witness :
  (1 < 2)%N ∧ (2 ≤ N.of_nat (total_routes [Examples.both_xy]))%N.
Proof.
  apply (indices_below_next_index [Examples.both_xy] "x_y"
           {| next_index := 2;
              cluster_weights_map :=
                {[ "x_10_y_90" := 0%N; "x_20_y_80" := 1%N ]} |}
           "x_20_y_80" 1%N); vm_compute; reflexivity.
Defined.

(** In such a map two actions over the same cluster set with different
    weights never have the same action name. *)
Theorem distinct_actions_distinct_names us clusters1 clusters2 name1 name2 :
  (N.of_nat (total_routes us) < 2 ^ 64)%N →
  cluster_names_key (GetWeightedClustersKey clusters1) =
    cluster_names_key (GetWeightedClustersKey clusters2) →
  cluster_weights_key (GetWeightedClustersKey clusters1) ≠
    cluster_weights_key (GetWeightedClustersKey clusters2) →
  WeightedClustersActionName (run_updates ∅ us) clusters1 = Some name1 →
  WeightedClustersActionName (run_updates ∅ us) clusters2 = Some name2 →
  name1 ≠ name2.
Proof.
  intros Hsmall Hnk Hwk. unfold WeightedClustersActionName. rewrite <-Hnk.
  destruct (run_updates ∅ us
              !! cluster_names_key (GetWeightedClustersKey clusters1))
    as [info|] eqn:Hinfo; [|done].
  destruct (run_updates_wf us Hsmall _ info Hinfo) as [[Hunique _] _].
  destruct (cluster_weights_map info
              !! cluster_weights_key (GetWeightedClustersKey clusters1))
    as [index1|] eqn:H1; [|done].
  destruct (cluster_weights_map info
              !! cluster_weights_key (GetWeightedClustersKey clusters2))
    as [index2|] eqn:H2; [|done].
  rewrite !StrFormat_name_index. intros [= <-] [= <-] Heq.
  do 2 apply (inj (String.app _)) in Heq.
  apply (inj pretty) in Heq. subst index2.
  apply Hwk. by eapply Hunique.
Qed.

Lemma distinct_actions_distinct_names_witness : "x_y_0" ≠ "x_y_1".
Proof.
  apply (distinct_actions_distinct_names [Examples.both_xy]
           (Examples.clusters [("x", 10%N); ("y", 90%N)])
           (Examples.clusters [("x", 20%N); ("y", 80%N)])).
  - vm_compute; reflexivity.
  - vm_compute; reflexivity.
  - vm_compute. discriminate.
  - vm_compute; reflexivity.
  - vm_compute; reflexivity.
Defined.

(** * More about the generated config *)

Lemma config_loop_route_table_witness :
  Forall2
    (λ route entry, ∃ action_name,
       route_action_name
         (UpdateWeightedClusterIndexMap ∅ ResolverExamples.same_name) route
         = Some action_name ∧
       entry = CreateServiceConfigRoute
                 (StrFormat "%s:%s" [route_action_kind route; action_name])
                 route)
    (routes ResolverExamples.same_name)
    [CreateServiceConfigRoute "cds:x_y_0" ResolverExamples.cluster_x_y_0;
     CreateServiceConfigRoute "weighted:x_y_0" Examples.xy_50_50].
Proof.
  apply (config_loop_route_table
           (UpdateWeightedClusterIndexMap ∅ ResolverExamples.same_name)
           ResolverExamples.same_name
           {| actions_vector := [CreateServiceConfigActionCluster "x_y_0"];
              route_table :=
                [CreateServiceConfigRoute "cds:x_y_0"
                   ResolverExamples.cluster_x_y_0;
                 CreateServiceConfigRoute "weighted:x_y_0"
                   Examples.xy_50_50];
              actions_set := {["x_y_0"]} |}).
  vm_compute. reflexivity.
Defined.

(** The action definitions are deduplicated by action name: there are as
    many definitions as distinct action names among the routes, and
    [actions_set] is the set of those names. *)
Theorem one_definition_per_action_name index_map rds_update loop :
  config_loop index_map rds_update = Some loop →
  length (actions_vector loop) = size (actions_set loop) ∧
  ∀ action_name,
    action_name ∈ actions_set loop ↔
    ∃ route, route ∈ routes rds_update ∧
             route_action_name index_map route = Some action_name.
Proof.
  unfold config_loop. generalize (routes rds_update). intros l. revert loop.
  induction l as [|route l IH] using rev_ind; intros loop.
  { simpl. intros [= <-]. cbn [actions_vector actions_set length].
    split; [symmetry; apply size_empty|].
    intros name. split; [by intros ?%not_elem_of_empty|].
    by intros (? & ?%elem_of_nil & _). }
  rewrite foldl_snoc. unfold config_loop_step at 1.
  destruct (foldl _ _ l) as [acc|]; simpl; [|done].
  destruct (IH acc eq_refl) as [Hlen Hset].
  destruct (route_action_name index_map route) as [name|] eqn:Hname;
    simpl; [|done].
  intros [= <-]. cbn [actions_vector actions_set].
  assert (∀ P : RdsRoute → Prop,
            (∃ r, r ∈ (l ++ [route])%list ∧ P r) ↔
            (∃ r, r ∈ l ∧ P r) ∨ P route) as Hsnoc.
  { intros P. setoid_rewrite elem_of_app.
    setoid_rewrite list_elem_of_singleton. naive_solver. }
  case_bool_decide as Hfresh.
  - split.
    + rewrite length_app, size_union, size_singleton by set_solver.
      simpl. lia.
    + intros n. rewrite elem_of_union, elem_of_singleton, Hset, Hsnoc.
      split; [intros [->|?]; auto|]. intros [?|Hn]; [by right|left].
      congruence.
  - split; [done|]. intros n. rewrite Hset, Hsnoc.
    split; [by left|]. intros [?|Hn]; [done|].
    assert (n = name) as -> by congruence.
    by apply Hset.
Qed.

Lemma one_definition_per_action_name_witness :
  let loop :=
    {| actions_vector := [CreateServiceConfigActionCluster "x_y_0"];
       route_table :=
         [CreateServiceConfigRoute "cds:x_y_0" ResolverExamples.cluster_x_y_0;
          CreateServiceConfigRoute "weighted:x_y_0" Examples.xy_50_50];
       actions_set := {["x_y_0"]} |} in
  length (actions_vector loop) = size (actions_set loop) ∧
  ∀ action_name,
    action_name ∈ actions_set loop ↔
    ∃ route, route ∈ routes ResolverExamples.same_name ∧
             route_action_name
               (UpdateWeightedClusterIndexMap ∅ ResolverExamples.same_name)
               route = Some action_name.
Proof.
  intros loop.
  apply (one_definition_per_action_name
           (UpdateWeightedClusterIndexMap ∅ ResolverExamples.same_name)
           ResolverExamples.same_name loop).
  vm_compute. reflexivity.
Defined.

Lemma config_loop_is_Some index_map rds_update :
  (∀ route, route ∈ routes rds_update →
            is_Some (route_action_name index_map route)) →
  is_Some (config_loop index_map rds_update).
Proof.
  unfold config_loop. generalize (routes rds_update). intros l.
  induction l as [|route l IH] using rev_ind; intros Hall; [by eexists|].
  rewrite foldl_snoc. unfold config_loop_step at 1.
  destruct IH as [acc ->].
  { intros r Hr. apply Hall, elem_of_app. by left. }
  destruct (Hall route) as [name ->].
  { apply elem_of_app. right. left. }
  simpl. by eexists.
Qed.

Section CreateServiceConfigFacts.

Context {ServiceConfig grpc_error : Type}.
Variable ServiceConfig_Create :
  string → option ServiceConfig * option grpc_error.

Lemma CreateServiceConfig_consistent index_map rds_update :
  keys_consistent rds_update →
  ∃ loop,
    config_loop (UpdateWeightedClusterIndexMap index_map rds_update)
      rds_update = Some loop ∧
    CreateServiceConfig ServiceConfig_Create index_map rds_update =
    Some (UpdateWeightedClusterIndexMap index_map rds_update,
          ServiceConfig_Create (config_json loop)).
Proof.
  intros Hcons.
  destruct (config_loop_is_Some
              (UpdateWeightedClusterIndexMap index_map rds_update) rds_update)
    as [loop Hloop].
  { intros route Hroute. unfold route_action_name.
    case_decide; [by eexists|].
    by apply WeightedClustersActionName_is_Some. }
  exists loop. split; [done|]. unfold CreateServiceConfig. by rewrite Hloop.
Qed.

(** When no two weighted routes of the update collide on their weights
    key, no [GPR_ASSERT] fails: [CreateServiceConfig] returns, with the
    updated map and with whatever [ServiceConfig::Create] makes of the
    generated text, from any map. *)
Theorem CreateServiceConfig_returns index_map rds_update :
  keys_consistent rds_update →
  ∃ loop,
    config_loop (UpdateWeightedClusterIndexMap index_map rds_update)
      rds_update = Some loop ∧
    CreateServiceConfig ServiceConfig_Create index_map rds_update =
    Some (UpdateWeightedClusterIndexMap index_map rds_update,
          ServiceConfig_Create (config_json loop)).
Proof. apply CreateServiceConfig_consistent. Qed.

End CreateServiceConfigFacts.

Lemma CreateServiceConfig_returns_witness :
  ∃ loop,
    config_loop
      (UpdateWeightedClusterIndexMap Examples.one_action
         Examples.only_xy_50_50) Examples.only_xy_50_50 = Some loop ∧
    CreateServiceConfig ResolverExamples.accept_all Examples.one_action
      Examples.only_xy_50_50 =
    Some (UpdateWeightedClusterIndexMap Examples.one_action
            Examples.only_xy_50_50,
          ResolverExamples.accept_all (config_json loop)).
Proof.
  apply CreateServiceConfig_returns.
  intros r1 r2 ->%list_elem_of_singleton ->%list_elem_of_singleton _ _ _.
  reflexivity.
Defined.

(** * The resolver's life cycle *)

(** [grpc_uri], as far as the resolver reads it. *)
Record grpc_uri := {
  uri_scheme : string;
  uri_authority : string;
  uri_path : string
}.

Section Lifecycle.

Context {ServiceConfig grpc_error grpc_arg : Type}.
Variable ServiceConfig_Create :
  string → option ServiceConfig * option grpc_error.

(** [MakeRefCounted<XdsConfigSelector>()] and the constructor of
    [XdsClient] are outside this file.  [XdsClient_new server_name args]
    is the client built for a server name and channel args, with the
    error its constructor stores ([None] for [GRPC_ERROR_NONE]). *)
Variable new_config_selector : @XdsConfigSelector grpc_arg.
Variable XdsClient_new :
  string → list grpc_arg → @XdsClient grpc_arg * option grpc_error.

Record ResolverArgs := {
  uri : grpc_uri;
  channel_args : list grpc_arg
}.

(** [if (path[0] == '/') ++path;] *)
Definition skip_leading_slash (path : string) : string :=
  match path with
  | String "/"%char rest => rest
  | _ => path
  end.

(** The constructor [XdsResolver(ResolverArgs args)]. *)
Definition XdsResolver_new (args : ResolverArgs) : @XdsResolver grpc_arg :=
  {| server_name_ := skip_leading_slash (uri_path (uri args));
     args_ := grpc_channel_args_copy (channel_args args);
     xds_client_ := None;
     config_selector_ := new_config_selector;
     weighted_cluster_index_map_ := ∅ |}.

(** [XdsResolverFactory]. *)
Definition IsValidUri (uri : grpc_uri) : bool :=
  bool_decide (uri_authority uri = "").

Definition CreateResolver (args : ResolverArgs)
  : option (@XdsResolver grpc_arg) :=
  if IsValidUri (uri args) then Some (XdsResolver_new args)
  else None (* nullptr *).

Definition scheme : string := "xds".

(** [StartLocked]: the resolver with its new client, and the error passed
    to [result_handler()->ReturnError], if any. *)
Definition StartLocked (r : @XdsResolver grpc_arg)
  : @XdsResolver grpc_arg * option grpc_error :=
  let '(client, error) := XdsClient_new (server_name_ r) (args_ r) in
  ({| server_name_ := server_name_ r;
      args_ := args_ r;
      xds_client_ := Some client;
      config_selector_ := config_selector_ r;
      weighted_cluster_index_map_ := weighted_cluster_index_map_ r |},
   error).

Implicit Types (w : @Resolving ServiceConfig grpc_error grpc_arg).

(** The factory refuses exactly the URIs with an authority.  For the
    others, the server name is the path without its first character when
    that is a slash and the path itself otherwise; the channel args are
    kept, the cache is empty and there is no client yet. *)
Theorem CreateResolver_server_name args :
  (uri_authority (uri args) ≠ "" → CreateResolver args = None) ∧
  (uri_authority (uri args) = "" →
   ∃ r, CreateResolver args = Some r ∧
        (uri_path (uri args) = "/" +:+ server_name_ r ∨
         uri_path (uri args) = server_name_ r ∧
         ∀ rest, uri_path (uri args) ≠ "/" +:+ rest) ∧
        args_ r = channel_args args ∧
        xds_client_ r = None ∧
        weighted_cluster_index_map_ r = ∅).
Proof.
  unfold CreateResolver, IsValidUri. split; intros Hauth.
  - by rewrite bool_decide_eq_false_2.
  - rewrite bool_decide_eq_true_2 by done. eexists. split; [done|].
    split; [|done]. cbn [XdsResolver_new server_name_].
    destruct (uri_path (uri args)) as [|c rest]; [right; by split|].
    destruct (decide (c = "/"%char)) as [->|Hc]; [by left|].
    right. split.
    + unfold skip_leading_slash.
      destruct c as [[] [] [] [] [] [] [] []]; try done.
    + intros rest' [= ? _]. done.
Qed.

(** What one callback does to a live resolver, when it returns: it
    delivers exactly one result after those delivered before, and of the
    resolver it changes nothing but the cache. *)
Lemma run_callback_live w cb w' :
  is_Some (xds_client_ (resolver w)) →
  run_callback ServiceConfig_Create w cb = Some w' →
  (∃ result, delivered w' = (delivered w ++ [result])%list) ∧
  xds_client_ (resolver w') = xds_client_ (resolver w) ∧
  args_ (resolver w') = args_ (resolver w) ∧
  server_name_ (resolver w') = server_name_ (resolver w) ∧
  config_selector_ (resolver w') = config_selector_ (resolver w).
Proof.
  intros [client Hlive]. destruct cb as [listener_data|error|]; simpl.
  - unfold OnListenerChanged. rewrite Hlive.
    destruct (rds_update listener_data) as [rds|]; simpl; [|done].
    destruct (CreateServiceConfig _ _ rds) as [[index_map [config error]]|];
      simpl; [|done].
    destruct error as [e|].
    + unfold OnError. simpl. rewrite Hlive. intros [= <-]. simpl.
      split; [by eexists|done].
    + intros [= <-]. simpl. split; [by eexists|done].
  - unfold OnError. rewrite Hlive. intros [= <-]. simpl.
    split; [by eexists|done].
  - unfold OnResourceDoesNotExist. rewrite Hlive.
    destruct (ServiceConfig_Create "{}") as [[config|] error]; [|done].
    intros [= <-]. simpl. split; [by eexists|done].
Qed.

Lemma run_callbacks_live w cbs w' :
  is_Some (xds_client_ (resolver w)) →
  run_callbacks ServiceConfig_Create w cbs = Some w' →
  (∃ results, delivered w' = (delivered w ++ results)%list ∧
              length results = length cbs) ∧
  xds_client_ (resolver w') = xds_client_ (resolver w) ∧
  args_ (resolver w') = args_ (resolver w).
Proof.
  intros Hlive. unfold run_callbacks. revert w'.
  induction cbs as [|cb cbs IH] using rev_ind; intros w'.
  { simpl. intros [= <-]. split; [|done]. exists []. by rewrite app_nil_r. }
  rewrite foldl_snoc.
  destruct (foldl _ (Some w) cbs) as [w1|]; simpl; [|done].
  destruct (IH w1 eq_refl) as ((results & Hresults & Hlen) & Hclient & Hargs).
  intros Hstep.
  destruct (run_callback_live w1 cb w') as ((result & Hres) & Hc & Ha & _);
    [by rewrite Hclient|done|].
  split; [|split; congruence].
  exists (results ++ [result])%list. split.
  - by rewrite Hres, Hresults, app_assoc.
  - rewrite !length_app. simpl. lia.
Qed.


(** Only [OnListenerChanged] writes the cache: errors and
    resource-does-not-exist notifications, however many, leave the index
    map as the last update made it. *)
Theorem cache_kept_by_other_callbacks w cbs w' :
  (∀ listener_data, ListenerChanged listener_data ∉ cbs) →
  run_callbacks ServiceConfig_Create w cbs = Some w' →
  weighted_cluster_index_map_ (resolver w') =
  weighted_cluster_index_map_ (resolver w).
Proof.
  intros Hcbs. unfold run_callbacks. revert w'.
  induction cbs as [|cb cbs IH] using rev_ind; intros w'.
  { simpl. by intros [= <-]. }
  rewrite foldl_snoc.
  destruct (foldl _ (Some w) cbs) as [w1|]; simpl; [|done].
  rewrite <-(IH ltac:(intros ld Hin; apply (Hcbs ld), elem_of_app; by left)
               w1 eq_refl).
  destruct cb as [listener_data|error|]; simpl.
  - destruct (Hcbs listener_data). apply elem_of_app. right. left.
  - unfold OnError. destruct (xds_client_ (resolver w1)); by intros [= <-].
  - unfold OnResourceDoesNotExist.
    destruct (xds_client_ (resolver w1)); [|by intros [= <-]].
    destruct (ServiceConfig_Create "{}") as [[config|] error]; [|done].
    by intros [= <-].
Qed.

(** An update without key collisions on a live resolver: the callback
    returns, the cache is the updated one even when the generated text is
    rejected, and exactly one result is delivered, which carries either
    the error of [ServiceConfig::Create] and no config, or the config and
    no error. *)
Theorem OnListenerChanged_delivers_once w listener_data rds :
  is_Some (xds_client_ (resolver w)) →
  rds_update listener_data = Some rds →
  keys_consistent rds →
  let index_map :=
    UpdateWeightedClusterIndexMap
      (weighted_cluster_index_map_ (resolver w)) rds in
  ∃ loop result,
    config_loop index_map rds = Some loop ∧
    OnListenerChanged ServiceConfig_Create listener_data w =
      Some {| resolver := set_index_map (resolver w) index_map;
              delivered := (delivered w ++ [result])%list |} ∧
    service_config_error result =
      (ServiceConfig_Create (config_json loop)).2 ∧
    service_config result =
      match (ServiceConfig_Create (config_json loop)).2 with
      | Some _ => None
      | None => (ServiceConfig_Create (config_json loop)).1
      end.
Proof.
  intros [client Hlive] Hrds Hcons index_map.
  destruct (CreateServiceConfig_consistent ServiceConfig_Create
              (weighted_cluster_index_map_ (resolver w)) rds Hcons)
    as (loop & Hloop & Hcreate).
  exists loop. unfold OnListenerChanged. rewrite Hlive, Hrds. simpl.
  rewrite Hcreate. simpl. fold index_map.
  destruct (ServiceConfig_Create (config_json loop)) as [config [e|]]; simpl.
  - unfold OnError. simpl. rewrite Hlive. eexists. split; [done|].
    split; [done|]. done.
  - eexists. split; [done|]. split; [done|]. done.
Qed.

(** The whole life of a resolver the factory creates: callbacks that run
    before [StartLocked] deliver nothing; after [StartLocked] the
    callbacks that return deliver one result each; and after
    [ShutdownLocked] nothing more is delivered. *)
Theorem resolver_life_cycle args r cbs0 cbs1 cbs2 w :
  CreateResolver args = Some r →
  run_callbacks ServiceConfig_Create
    {| resolver := (StartLocked r).1; delivered := [] |} cbs1 = Some w →
  run_callbacks ServiceConfig_Create
    {| resolver := r; delivered := [] |} cbs0
    = Some {| resolver := r; delivered := [] |} ∧
  length (delivered w) = length cbs1 ∧
  run_callbacks ServiceConfig_Create
    {| resolver := ShutdownLocked (resolver w); delivered := delivered w |}
    cbs2
    = Some {| resolver := ShutdownLocked (resolver w);
              delivered := delivered w |}.
Proof.
  intros Hcreate Hrun. split; [|split].
  - apply run_callbacks_shut_down. simpl.
    unfold CreateResolver in Hcreate.
    destruct (IsValidUri (uri args)); [|done]. by injection Hcreate as <-.
  - assert (is_Some (xds_client_ (StartLocked r).1)) as Hlive.
    { unfold StartLocked. destruct (XdsClient_new _ _). simpl. by eexists. }
    destruct (run_callbacks_live
                {| resolver := (StartLocked r).1; delivered := [] |}
                cbs1 w Hlive Hrun)
      as ((results & Hres & Hlen) & _).
    simpl in Hres. by rewrite Hres.
  - by apply run_callbacks_shut_down.
Qed.

End Lifecycle.

(** ** Concrete life cycles *)

Module LifecycleExamples.

Definition selector : @XdsConfigSelector string :=
  {| selector_channel_arg := "config_selector_arg" |}.

(** A client constructor that succeeds. *)
Definition new_client (server_name : string) (args : list string)
  : @XdsClient string * option string :=
  ({| client_channel_arg := "xds_client_arg" |}, None).

Definition target : @ResolverArgs string :=
  {| uri := {| uri_scheme := "xds"; uri_authority := "";
               uri_path := "/server.example.com" |};
     channel_args := ["base_arg"] |}.

Definition target_with_authority : @ResolverArgs string :=
  {| uri := {| uri_scheme := "xds"; uri_authority := "xds.example.com";
               uri_path := "/server.example.com" |};
     channel_args := ["base_arg"] |}.

Definition callbacks : list (@WatcherCallback string) :=
  [Error (Some "unavailable");
   ListenerChanged {| rds_update := Some Examples.only_xy_50_50 |};
   ResourceDoesNotExist].

End LifecycleExamples.

Lemma CreateResolver_server_name_witness :
  CreateResolver LifecycleExamples.selector
    LifecycleExamples.target_with_authority = None ∧
  ∃ r, CreateResolver LifecycleExamples.selector LifecycleExamples.target
         = Some r ∧
       (uri_path (uri LifecycleExamples.target) = "/" +:+ server_name_ r ∨
        uri_path (uri LifecycleExamples.target) = server_name_ r ∧
        ∀ rest, uri_path (uri LifecycleExamples.target) ≠ "/" +:+ rest) ∧
       args_ r = channel_args LifecycleExamples.target ∧
       xds_client_ r = None ∧
       weighted_cluster_index_map_ r = ∅.
Proof.
  split.
  - apply (CreateResolver_server_name LifecycleExamples.selector
             LifecycleExamples.target_with_authority). discriminate.
  - apply (CreateResolver_server_name LifecycleExamples.selector
             LifecycleExamples.target). reflexivity.
Defined.


Lemma OnListenerChanged_delivers_once_witness :
  let index_map :=
    UpdateWeightedClusterIndexMap ∅ Examples.only_xy_50_50 in
  ∃ loop result,
    config_loop index_map Examples.only_xy_50_50 = Some loop ∧
    OnListenerChanged ResolverExamples.accept_all
      {| rds_update := Some Examples.only_xy_50_50 |} ResolverExamples.live =
      Some {| resolver :=
                set_index_map ResolverExamples.live_resolver index_map;
              delivered := [result] |} ∧
    service_config_error result =
      (ResolverExamples.accept_all (config_json loop)).2 ∧
    service_config result =
      match (ResolverExamples.accept_all (config_json loop)).2 with
      | Some _ => None
      | None => (ResolverExamples.accept_all (config_json loop)).1
      end.
Proof.
  apply (OnListenerChanged_delivers_once ResolverExamples.accept_all
           ResolverExamples.live
           {| rds_update := Some Examples.only_xy_50_50 |}
           Examples.only_xy_50_50).
  - by eexists.
  - reflexivity.
  - intros r1 r2 ->%list_elem_of_singleton ->%list_elem_of_singleton _ _ _.
    reflexivity.
Defined.

Lemma resolver_life_cycle_witness :
  let r := XdsResolver_new LifecycleExamples.selector
             LifecycleExamples.target in
  ∃ w,
    run_callbacks ResolverExamples.accept_all
      {| resolver := (StartLocked LifecycleExamples.new_client r).1;
         delivered := [] |} LifecycleExamples.callbacks = Some w ∧
    run_callbacks ResolverExamples.accept_all
      {| resolver := r; delivered := [] |} LifecycleExamples.callbacks
      = Some {| resolver := r; delivered := [] |} ∧
    length (delivered w) = length LifecycleExamples.callbacks ∧
    run_callbacks ResolverExamples.accept_all
      {| resolver := ShutdownLocked (resolver w); delivered := delivered w |}
      LifecycleExamples.callbacks
      = Some {| resolver := ShutdownLocked (resolver w);
                delivered := delivered w |}.
Proof.
  intros r.
  destruct (run_callbacks ResolverExamples.accept_all
              {| resolver := (StartLocked LifecycleExamples.new_client r).1;
                 delivered := [] |} LifecycleExamples.callbacks)
    as [w|] eqn:Hrun.
  - exists w. split; [done|].
    apply (resolver_life_cycle ResolverExamples.accept_all
             LifecycleExamples.selector LifecycleExamples.new_client
             LifecycleExamples.target r); [reflexivity|done].
  - vm_compute in Hrun. discriminate.
Defined.

Lemma cache_kept_by_other_callbacks_witness :
  ∃ w',
    run_callbacks ResolverExamples.accept_all
      {| resolver :=
           set_index_map ResolverExamples.live_resolver Examples.two_actions;
         delivered := [] |}
      [Error (Some "unavailable"); ResourceDoesNotExist] = Some w' ∧
    weighted_cluster_index_map_ (resolver w') = Examples.two_actions.
Proof.
  destruct (run_callbacks ResolverExamples.accept_all
              {| resolver :=
                   set_index_map ResolverExamples.live_resolver
                     Examples.two_actions;
                 delivered := [] |}
              [Error (Some "unavailable"); ResourceDoesNotExist])
    as [w'|] eqn:Hrun.
  - exists w'. split; [done|].
    apply (cache_kept_by_other_callbacks ResolverExamples.accept_all
             {| resolver :=
                  set_index_map ResolverExamples.live_resolver
                    Examples.two_actions;
                delivered := [] |}
             [Error (Some "unavailable"); ResourceDoesNotExist] w');
      [|done].
    intros ld Hin. apply elem_of_cons in Hin as [[=]|Hin].
    apply list_elem_of_singleton in Hin. discriminate.
  - vm_compute in Hrun. discriminate.
Defined.
